(** * Tasqueue, results/redis: the result store over a Redis-like server

    A shallow embedding of [results/redis/results.go].  The remote store
    and its client are external to the package; they are modelled here
    as a sequential key-value server with string and sorted-set values,
    lazy key expiry and batched execution of a command queue.  The
    methods of [Results] are transcribed over that model with explicit
    state passing. *)

From Stdlib Require Import ZArith Lia.
From stdpp Require Import base tactics option list sorting strings pretty gmap.

Local Open Scope Z_scope.

(** ** Machine numbers *)

(** Go's [int64] subtraction wraps around. *)
Definition wrap64 (n : Z) : Z := (n + 2 ^ 63) mod 2 ^ 64 - 2 ^ 63.

(** [round_even a e]: the multiple of [2^e] nearest to [a >= 0], ties
    going to the even significand. *)
Definition round_even (a e : Z) : Z :=
  let q := a / 2 ^ e in
  let r := a mod 2 ^ e in
  let half := 2 ^ (e - 1) in
  let q' := if r <? half then q
            else if half <? r then q + 1
            else if Z.even q then q else q + 1 in
  q' * 2 ^ e.

(** The magnitude of a double made from a magnitude [a]: exact below
    [2^53], and above it the nearest number with a 53-bit significand. *)
Definition float64_abs (a : Z) : Z :=
  if a <? 2 ^ 53 then a else round_even a (Z.log2 a - 52).

(** The conversion [float64(n)] of an [int64].  The result is always an
    integer, so scores are kept in [Z]. *)
Definition float64 (n : Z) : Z := Z.sgn n * float64_abs (Z.abs n).

(** ** The remote store *)

Abbreviation bytes := (list Byte.byte).

(** A sorted set: members with their scores.  The server keeps members
    unique by replacing on insertion; ordering is produced by the range
    queries. *)
Abbreviation zset := (list (string * Z)).

Inductive value :=
| VString (b : bytes)
| VZSet (z : zset).

Record entry := Entry { e_val : value; e_expire : option Z }.

Abbreviation database := (gmap string entry).

(** [redis.Nil] is the reply to a read of a missing key; [WrongType] is
    the server's refusal of a command on a key of another type;
    [IOError] stands for connection, timeout and protocol failures. *)
Inductive error :=
| Nil
| WrongType
| IOError (msg : string).

(** Variadic [...interface{}] arguments as the call sites supply them. *)
Inductive arg :=
| AInt (n : Z)
| AStr (s : string).

Definition arg_string (a : arg) : string :=
  match a with
  | AInt n => pretty n
  | AStr s => s
  end.

Inductive command :=
| CGet (key : string)
| CSet (key : string) (val : bytes) (expiration : Z)
| CDel (key : string)
| CZAdd (key : string) (score : Z) (member : string)
| CZRem (key : string) (members : list arg)
| CZRevRangeByScore (key : string) (min max : Z)
| CZRemRangeByScore (key : string) (min max : Z).

Inductive reply :=
| RStatus
| RInt (n : Z)
| RBulk (b : bytes)
| RList (l : list string).

Definition expired (now : Z) (e : entry) : bool :=
  match e_expire e with
  | Some t => t <? now
  | None => false
  end.

(** A key past its deadline is dropped when a command touches it. *)
Definition expireIfNeeded (now : Z) (k : string) (d : database) : database :=
  match d !! k with
  | Some e => if expired now e then delete k d else d
  | None => d
  end.

Definition KeepTTL : Z := -1.
Definition Millisecond : Z := 1000000.

(** The time to live the client sends for a positive [expiration]: whole
    milliseconds, at least one. *)
Definition formatMs (dur : Z) : Z :=
  if (0 <? dur) && (dur <? Millisecond) then 1 else dur ÷ Millisecond.

Definition set_expire (now expiration : Z) (old : option entry) : option Z :=
  if 0 <? expiration then Some (now + formatMs expiration * Millisecond)
  else if expiration =? KeepTTL then old ≫= e_expire
  else None.

Definition zset_add (m : string) (s : Z) (z : zset) : zset :=
  (m, s) :: filter (λ p, p.1 ≠ m) z.

Definition zset_rem (ms : list string) (z : zset) : zset :=
  filter (λ p, p.1 ∉ ms) z.

Definition in_range (lo hi : Z) (p : string * Z) : Prop := lo ≤ p.2 ≤ hi.

Global Instance in_range_dec lo hi p : Decision (in_range lo hi p).
Proof. unfold in_range. apply _. Defined.

Definition zset_rem_range (lo hi : Z) (z : zset) : zset :=
  filter (λ p, ¬ in_range lo hi p) z.

(** Output order of a reverse range: higher score first, equal scores
    by member, greater first. *)
Definition zrev_le (a b : string * Z) : Prop :=
  b.2 < a.2 ∨ (b.2 = a.2 ∧ String.le b.1 a.1).

Global Instance zrev_le_dec : RelDecision zrev_le.
Proof. intros a b. unfold zrev_le. apply _. Defined.

Definition zset_rev_range (lo hi : Z) (z : zset) : zset :=
  merge_sort zrev_le (filter (in_range lo hi) z).

(** A sorted set that becomes empty is removed with its key. *)
Definition store_zset (k : string) (z : zset) (t : option Z) (d : database)
  : database :=
  match z with
  | [] => delete k d
  | _ => <[k := Entry (VZSet z) t]> d
  end.

Definition count_removed (z z' : zset) : Z :=
  Z.of_nat (length z) - Z.of_nat (length z').

(** One command on the server at server time [now].  Range bounds
    arrive as decimal integers and are read as doubles. *)
Definition run (now : Z) (c : command) (d0 : database)
  : database * (error + reply) :=
  match c with
  | CGet k =>
      let d := expireIfNeeded now k d0 in
      match d !! k with
      | None => (d, inl Nil)
      | Some (Entry (VString b) _) => (d, inr (RBulk b))
      | Some (Entry (VZSet _) _) => (d, inl WrongType)
      end
  | CSet k b ex =>
      let d := expireIfNeeded now k d0 in
      (<[k := Entry (VString b) (set_expire now ex (d !! k))]> d, inr RStatus)
  | CDel k =>
      let d := expireIfNeeded now k d0 in
      (delete k d, inr (RInt (if d !! k is Some _ then 1 else 0)))
  | CZAdd k s m =>
      let d := expireIfNeeded now k d0 in
      match d !! k with
      | None => (<[k := Entry (VZSet [(m, s)]) None]> d, inr (RInt 1))
      | Some (Entry (VZSet z) t) =>
          (<[k := Entry (VZSet (zset_add m s z)) t]> d,
           inr (RInt (if decide (m ∈ z.*1) then 0 else 1)))
      | Some (Entry (VString _) _) => (d, inl WrongType)
      end
  | CZRem k ms =>
      let d := expireIfNeeded now k d0 in
      match d !! k with
      | None => (d, inr (RInt 0))
      | Some (Entry (VZSet z) t) =>
          let z' := zset_rem (arg_string <$> ms) z in
          (store_zset k z' t d, inr (RInt (count_removed z z')))
      | Some (Entry (VString _) _) => (d, inl WrongType)
      end
  | CZRevRangeByScore k lo hi =>
      let d := expireIfNeeded now k d0 in
      match d !! k with
      | None => (d, inr (RList []))
      | Some (Entry (VZSet z) _) =>
          (d, inr (RList (zset_rev_range (float64 lo) (float64 hi) z).*1))
      | Some (Entry (VString _) _) => (d, inl WrongType)
      end
  | CZRemRangeByScore k lo hi =>
      let d := expireIfNeeded now k d0 in
      match d !! k with
      | None => (d, inr (RInt 0))
      | Some (Entry (VZSet z) t) =>
          let z' := zset_rem_range (float64 lo) (float64 hi) z in
          (store_zset k z' t d, inr (RInt (count_removed z z')))
      | Some (Entry (VString _) _) => (d, inl WrongType)
      end
  end.

(** A batch on the server: every command runs, in order; the client
    reports the first error among the replies. *)
Fixpoint run_batch (now : Z) (q : list command) (d : database)
  : database * option error :=
  match q with
  | [] => (d, None)
  | c :: q' =>
      let (d1, res) := run now c d in
      let (d2, err) := run_batch now q' d1 in
      (d2, match res with inl e => Some e | inr _ => err end)
  end.

(** ** The client *)

(** What a call sees of the outside: the clock and the state of the
    link to the server for the round trips of that call ([Some msg]: the
    round trip fails with [msg] and nothing reaches the server). *)
Record env := Env { now : Z; link : option string }.

(** The connection: the server's keyspace and, for the statements about
    round trips, the batches sent so far (oldest first). *)
Record Conn := MkConn { server : database; trips : list (list command) }.

Definition roundtrip (e : env) (q : list command) (cn : Conn)
  : Conn * option error :=
  match link e with
  | Some msg => (MkConn (server cn) (trips cn ++ [q]), Some (IOError msg))
  | None =>
      let (d, err) := run_batch (now e) q (server cn) in
      (MkConn d (trips cn ++ [q]), err)
  end.

(** [conn.Cmd(...)]: one command, sent at once. *)
Definition process (e : env) (c : command) (cn : Conn)
  : Conn * (error + reply) :=
  match link e with
  | Some msg => (MkConn (server cn) (trips cn ++ [[c]]), inl (IOError msg))
  | None =>
      let (d, res) := run (now e) c (server cn) in
      (MkConn d (trips cn ++ [[c]]), res)
  end.

(** [conn.Pipeline()]: an empty queue. *)
Definition Pipeline : list command := [].

(** [pipe.Cmd(...)]: the command is queued; its [Err()] is nil until the
    queue is executed. *)
Definition queue (c : command) (q : list command)
  : list command * option error := (q ++ [c], None).

(** [pipe.Exec]: an empty queue is not sent; otherwise the queue is
    taken whole, emptied and sent as one batch. *)
Definition Exec (e : env) (q : list command) (cn : Conn)
  : list command * Conn * option error :=
  match q with
  | [] => ([], cn, None)
  | _ => let (cn', err) := roundtrip e q cn in ([], cn', err)
  end.

Definition Bytes (res : error + reply) : error + bytes :=
  match res with
  | inl err => inl err
  | inr (RBulk b) => inr b
  | inr _ => inl (IOError "redis: unexpected reply")
  end.

Definition Result (res : error + reply) : error + list string :=
  match res with
  | inl err => inl err
  | inr (RList l) => inr l
  | inr _ => inl (IOError "redis: unexpected reply")
  end.

Definition Err (res : error + reply) : option error :=
  match res with
  | inl err => Some err
  | inr _ => None
  end.

(** ** results.go *)

Definition resultPrefix : string := "tq:res:".
Definition success : string := "success".
Definition failed : string := "failed".

Record Options := {
  Addrs : list string;
  Password : string;
  DB : Z;
  DialTimeout : Z;
  ReadTimeout : Z;
  WriteTimeout : Z;
  IdleTimeout : Z;
  Expiry : Z;
  MetaExpiry : Z;
  MinIdleConns : Z;
  PipePeriod : Z
}.

Inductive level := LDebug | LInfo | LError.

(** A log record: level and message (attributes are left out). *)
Record logrec := Log { lvl : level; msg : string }.

(** [pipe] is the shared queue; it is nil, here empty, when
    [PipePeriod] is zero. *)
Record Results := MkResults {
  opts : Options;
  lo : list logrec;
  conn : Conn;
  pipe : list command
}.

Definition log (l : level) (m : string) (r : Results) : Results :=
  MkResults (opts r) (lo r ++ [Log l m]) (conn r) (pipe r).

Definition with_conn (cn : Conn) (r : Results) : Results :=
  MkResults (opts r) (lo r) cn (pipe r).

Definition with_pipe (q : list command) (r : Results) : Results :=
  MkResults (opts r) (lo r) (conn r) q.

(** A command on [r.conn]. *)
Definition conn_do (e : env) (c : command) (r : Results)
  : Results * (error + reply) :=
  let (cn, res) := process e c (conn r) in (with_conn cn r, res).

(** A command on [r.pipe]. *)
Definition pipe_do (c : command) (r : Results) : Results * option error :=
  let (q, err) := queue c (pipe r) in (with_pipe q r, err).

(** [r.pipe.Exec(ctx)]. *)
Definition pipe_Exec (e : env) (r : Results) : Results * option error :=
  let '(q, cn, err) := Exec e (pipe r) (conn r) in
  (with_pipe q (with_conn cn r), err).

Definition DefaultRedis : Options :=
  {| Addrs := ["127.0.0.1:6379"]; Password := ""; DB := 0;
     DialTimeout := 0; ReadTimeout := 0; WriteTimeout := 0; IdleTimeout := 0;
     Expiry := 0; MetaExpiry := 0; MinIdleConns := 0; PipePeriod := 0 |}.

(** The background loops [New] starts with [go]. *)
Inductive goroutine :=
| GoExpireMeta (ttl : Z)
| GoExecPipe.

(** [New]: [d] is the keyspace of the server the client connects to. *)
Definition New (o : Options) (lg : list logrec) (d : database)
  : Results * list goroutine :=
  let rs := MkResults o lg (MkConn d []) [] in
  let g1 := if decide (MetaExpiry o ≠ 0) then [GoExpireMeta (MetaExpiry o)]
            else [] in
  let (rs, g2) := if decide (PipePeriod o ≠ 0)
                  then (with_pipe Pipeline rs, [GoExecPipe])
                  else (rs, []) in
  (rs, g1 ++ g2).

(** [time.NewTicker] panics on a non-positive period. *)
Definition NewTicker (d : Z) : option Z := if 0 <? d then Some d else None.

(** What the [select] of a loop receives. *)
Inductive signal :=
| Tick (e : env)
| Done (e : env).

Inductive exit :=
| Returned
| Blocked
| Panicked.

Definition execPipe_done (e : env) (r : Results) : Results :=
  let r := log LDebug "context closed, draining redis pipe" r in
  let (r, err) := pipe_Exec e r in
  if err is Some _ then log LError "could not execute redis pipe" r else r.

Definition execPipe_tick (e : env) (r : Results) : Results :=
  let plen := length (pipe r) in
  if decide (plen = 0%nat) then r
  else
    let r := log LDebug "submitting redis pipe" r in
    let (r, err) := pipe_Exec e r in
    if err is Some _ then log LError "could not execute redis pipe" r else r.

(** The [for { select { ... } }] of [execPipe] over the signals it
    receives; the signals left over are returned with the exit. *)
Fixpoint execPipe_loop (sigs : list signal) (r : Results)
  : Results * exit * list signal :=
  match sigs with
  | [] => (r, Blocked, [])
  | Done e :: rest => (execPipe_done e r, Returned, rest)
  | Tick e :: rest => execPipe_loop rest (execPipe_tick e r)
  end.

Definition execPipe (sigs : list signal) (r : Results)
  : Results * exit * list signal :=
  match NewTicker (PipePeriod (opts r)) with
  | None => (r, Panicked, sigs)
  | Some _ => execPipe_loop sigs r
  end.

Definition DeleteJob (e : env) (id : string) (r : Results)
  : Results * option error :=
  let r := log LDebug "deleting job" r in
  let pipe := Pipeline in
  let (pipe, err) :=
    queue (CZRem (resultPrefix +:+ success) [AInt 1; AStr id]) pipe in
  if err is Some x then (r, Some x) else
  let (pipe, err) :=
    queue (CZRem (resultPrefix +:+ failed) [AInt 1; AStr id]) pipe in
  if err is Some x then (r, Some x) else
  let (pipe, err) := queue (CDel (resultPrefix +:+ id)) pipe in
  if err is Some x then (r, Some x) else
  let '(_, cn, err) := Exec e pipe (conn r) in
  let r := with_conn cn r in
  if err is Some x then (r, Some x) else (r, None).

Definition GetSuccess (e : env) (r : Results)
  : Results * (error + list string) :=
  let r := log LDebug "getting successful jobs" r in
  let (r, res) :=
    conn_do e (CZRevRangeByScore (resultPrefix +:+ success) 0 (now e)) r in
  match Result res with
  | inl err => (r, inl err)
  | inr rs => (r, inr rs)
  end.

Definition GetFailed (e : env) (r : Results)
  : Results * (error + list string) :=
  let r := log LDebug "getting failed jobs" r in
  let (r, res) :=
    conn_do e (CZRevRangeByScore (resultPrefix +:+ failed) 0 (now e)) r in
  match Result res with
  | inl err => (r, inl err)
  | inr rs => (r, inr rs)
  end.

Definition SetSuccess (e : env) (id : string) (r : Results)
  : Results * option error :=
  let r := log LDebug "setting job as successful" r in
  if decide (PipePeriod (opts r) ≠ 0) then
    pipe_do (CZAdd (resultPrefix +:+ success) (float64 (now e)) id) r
  else
    let (r, res) :=
      conn_do e (CZAdd (resultPrefix +:+ success) (float64 (now e)) id) r in
    (r, Err res).

Definition SetFailed (e : env) (id : string) (r : Results)
  : Results * option error :=
  let r := log LDebug "setting job as failed" r in
  if decide (PipePeriod (opts r) ≠ 0) then
    pipe_do (CZAdd (resultPrefix +:+ failed) (float64 (now e)) id) r
  else
    let (r, res) :=
      conn_do e (CZAdd (resultPrefix +:+ failed) (float64 (now e)) id) r in
    (r, Err res).

(** [Set] in the source; the name is reserved here. *)
Definition Set_ (e : env) (id : string) (b : bytes) (r : Results)
  : Results * option error :=
  let r := log LDebug "setting result for job" r in
  if decide (PipePeriod (opts r) ≠ 0) then
    pipe_do (CSet (resultPrefix +:+ id) b (Expiry (opts r))) r
  else
    let (r, res) :=
      conn_do e (CSet (resultPrefix +:+ id) b (Expiry (opts r))) r in
    (r, Err res).

Definition Get (e : env) (id : string) (r : Results)
  : Results * (error + bytes) :=
  let r := log LDebug "getting result for job" r in
  let (r, res) := conn_do e (CGet (resultPrefix +:+ id)) r in
  match Bytes res with
  | inl err => (r, inl err)
  | inr rs => (r, inr rs)
  end.

(** The body of [case <-tk.C] in [expireMeta]. *)
Definition expireMeta_tick (ttl : Z) (e : env) (r : Results) : Results :=
  let now := wrap64 (now e - ttl) in
  let score := now in
  let r := log LDebug "purging failed results metadata" r in
  if decide (PipePeriod (opts r) ≠ 0) then
    let (r, err) :=
      pipe_do (CZRemRangeByScore (resultPrefix +:+ failed) 0 score) r in
    let r := if err is Some _
             then log LError "could not expire success/failed metadata" r
             else r in
    let r := log LDebug "purging success results metadata" r in
    let (r, err) :=
      pipe_do (CZRemRangeByScore (resultPrefix +:+ success) 0 score) r in
    if err is Some _
    then log LError "could not expire success/failed metadata" r
    else r
  else
    let (r, res) :=
      conn_do e (CZRemRangeByScore (resultPrefix +:+ failed) 0 score) r in
    let r := if Err res is Some _
             then log LError "could not expire success/failed metadata" r
             else r in
    let r := log LDebug "purging success results metadata" r in
    let (r, res) :=
      conn_do e (CZRemRangeByScore (resultPrefix +:+ success) 0 score) r in
    if Err res is Some _
    then log LError "could not expire success/failed metadata" r
    else r.

(** [expireMeta]: the loop has no exit; it consumes ticks for as long
    as they come. *)
Definition expireMeta (ttl : Z) (ticks : list env) (r : Results)
  : Results * exit :=
  let r := log LInfo "starting results meta purger" r in
  match NewTicker ttl with
  | None => (r, Panicked)
  | Some _ => (foldl (λ r e, expireMeta_tick ttl e r) r ticks, Blocked)
  end.

Definition NilError : error := Nil.

(** ** Observations used in the statements *)

(** The value a command at time [now] finds under [k]. *)
Definition live (now : Z) (k : string) (d : database) : option value :=
  match d !! k with
  | Some e => if expired now e then None else Some (e_val e)
  | None => None
  end.

(** The sorted set under [k], empty when there is none. *)
Definition index (now : Z) (k : string) (d : database) : zset :=
  match live now k d with
  | Some (VZSet z) => z
  | _ => []
  end.

Definition command_key (c : command) : string :=
  match c with
  | CGet k | CSet k _ _ | CDel k | CZAdd k _ _ | CZRem k _
  | CZRevRangeByScore k _ _ | CZRemRangeByScore k _ _ => k
  end.

(** The three commands of [DeleteJob], in the order it queues them. *)
Definition delete_batch (id : string) : list command :=
  [CZRem (resultPrefix +:+ success) [AInt 1; AStr id];
   CZRem (resultPrefix +:+ failed) [AInt 1; AStr id];
   CDel (resultPrefix +:+ id)].

(** ** Histories *)

(** What happens to a [Results] over time: the calls of its users and
    the ticks of its two loops, each with the clock and the link at
    that moment. *)
Inductive call :=
| CallSet (id : string) (b : bytes)
| CallGet (id : string)
| CallSetSuccess (id : string)
| CallSetFailed (id : string)
| CallGetSuccess
| CallGetFailed
| CallDeleteJob (id : string)
| TickFlush
| TickPurge.

(** A loop ticks only if it runs: [New] starts it for a period that is
    not zero, and its ticker exists for a positive one. *)
Definition step (ev : env * call) (r : Results) : Results :=
  let e := ev.1 in
  match ev.2 with
  | CallSet id b => (Set_ e id b r).1
  | CallGet id => (Get e id r).1
  | CallSetSuccess id => (SetSuccess e id r).1
  | CallSetFailed id => (SetFailed e id r).1
  | CallGetSuccess => (GetSuccess e r).1
  | CallGetFailed => (GetFailed e r).1
  | CallDeleteJob id => (DeleteJob e id r).1
  | TickFlush =>
      if 0 <? PipePeriod (opts r) then execPipe_tick e r else r
  | TickPurge =>
      if 0 <? MetaExpiry (opts r)
      then expireMeta_tick (MetaExpiry (opts r)) e r else r
  end.

Definition run_calls (evs : list (env * call)) (r : Results) : Results :=
  foldl (λ r ev, step ev r) r evs.

(** The calls that write or delete the result record of [id]. *)
Definition writes_record (id : string) (c : call) : Prop :=
  match c with
  | CallSet id' _ | CallDeleteJob id' => id' = id
  | _ => False
  end.

(** The commands that leave a string under [k] alone. *)
Definition harmless (k : string) (c : command) : Prop :=
  match c with
  | CSet k' _ _ | CDel k' => k' ≠ k
  | _ => True
  end.

(** The record [v] is stored under [k] with deadline [dl], and nothing
    queued for a running flusher will replace it. *)
Definition keeps (k : string) (v : bytes) (dl : option Z) (r : Results) : Prop :=
  server (conn r) !! k = Some (Entry (VString v) dl) ∧
  (0 < PipePeriod (opts r) → Forall (harmless k) (pipe r)).

(** The key [k] holds a value at time [t]: it has not expired. *)
Definition unexpired (k : string) (r : Results) (t : Z) : Prop :=
  is_Some (live t k (server (conn r))).

(** The write of [v] under [k] is queued, and nothing queued behind it
    will replace it. *)
Definition pending (k : string) (v : bytes) (ex : Z) (r : Results) : Prop :=
  ∃ q1 q2, pipe r = q1 ++ CSet k v ex :: q2 ∧ Forall (harmless k) q2.

(** ** The keyspace *)

Lemma lookup_expireIfNeeded now k k' (d : database) :
  expireIfNeeded now k d !! k' =
  if decide (k = k')
  then match d !! k with
       | Some e => if expired now e then None else Some e
       | None => None
       end
  else d !! k'.
Proof.
  unfold expireIfNeeded. case_decide as Hk.
  - subst k'. destruct (d !! k) as [en|] eqn:Hd; [|by rewrite Hd].
    destruct (expired now en); [by rewrite lookup_delete_eq|by rewrite Hd].
  - destruct (d !! k) as [en|]; [|done].
    destruct (expired now en); [by rewrite lookup_delete_ne|done].
Qed.

Lemma live_expireIfNeeded now k k' (d : database) :
  live now k' (expireIfNeeded now k d) = live now k' d.
Proof.
  unfold live. rewrite lookup_expireIfNeeded. case_decide as Hk; [|done].
  subst k'. destruct (d !! k) as [en|]; [|done].
  by destruct (expired now en) eqn:He; [|rewrite He].
Qed.

Lemma live_Some now k (d : database) v :
  live now k d = Some v ↔
  ∃ t, expireIfNeeded now k d !! k = Some (Entry v t).
Proof.
  unfold live. rewrite lookup_expireIfNeeded, decide_True by done.
  destruct (d !! k) as [[v' t']|]; simpl.
  - destruct (expired now _); split.
    + done.
    + by intros [t ?].
    + intros [= ->]. by exists t'.
    + by intros [t [= -> _]].
  - split; [done|by intros [t ?]].
Qed.

Lemma live_None now k (d : database) :
  live now k d = None ↔ expireIfNeeded now k d !! k = None.
Proof.
  unfold live. rewrite lookup_expireIfNeeded, decide_True by done.
  destruct (d !! k) as [en|]; [|done]. by destruct (expired now en).
Qed.

(** ** Commands on the server *)

(** After a [SET] the key holds the payload, at the time of the write. *)
Lemma run_CSet_live now k b ex (d : database) :
  live now k (run now (CSet k b ex) d).1 = Some (VString b).
Proof.
  simpl. unfold live. rewrite lookup_insert_eq. unfold expired; simpl.
  unfold set_expire. destruct (0 <? ex) eqn:Hex; simpl.
  - assert (0 ≤ formatMs ex) as Hf.
    { unfold formatMs, Millisecond.
      destruct ((0 <? ex) && (ex <? 1000000)); [lia|].
      apply Z.quot_pos; lia. }
    unfold Millisecond.
    destruct (now + formatMs ex * 1000000 <? now) eqn:Hlt; [lia|done].
  - destruct (ex =? KeepTTL); [|done].
    rewrite lookup_expireIfNeeded, decide_True by done.
    destruct (d !! k) as [[v t]|]; [|done]. unfold expired; simpl.
    destruct t as [t|]; [|done]. simpl.
    destruct (t <? now) eqn:Hlt; simpl; [done|by rewrite Hlt].
Qed.

Lemma run_CGet now k (d : database) :
  (run now (CGet k) d).2 =
  match live now k d with
  | None => inl Nil
  | Some (VString b) => inr (RBulk b)
  | Some (VZSet _) => inl WrongType
  end.
Proof.
  simpl. unfold live. rewrite lookup_expireIfNeeded, decide_True by done.
  destruct (d !! k) as [[v t]|]; [|done]. simpl.
  destruct (expired now _); [done|]. by destruct v.
Qed.

(** ** Get *)

Lemma Get_result e id r :
  (Get e id r).2 = Bytes (process e (CGet (resultPrefix +:+ id)) (conn r)).2.
Proof.
  unfold Get, conn_do. simpl.
  destruct (process e _ (conn r)) as [cn res]. simpl.
  by destruct (Bytes res).
Qed.

Lemma process_result e c cn :
  (process e c cn).2 =
  match link e with
  | Some msg => inl (IOError msg)
  | None => (run (now e) c (server cn)).2
  end.
Proof.
  unfold process. destruct (link e); [done|].
  by destruct (run (now e) c (server cn)).
Qed.

Lemma process_server e c cn :
  server (process e c cn).1 =
  match link e with
  | Some _ => server cn
  | None => (run (now e) c (server cn)).1
  end.
Proof.
  unfold process. destruct (link e); [done|].
  by destruct (run (now e) c (server cn)).
Qed.

Lemma process_trips e c cn :
  trips (process e c cn).1 = trips cn ++ [[c]].
Proof.
  unfold process. destruct (link e); [done|].
  by destruct (run (now e) c (server cn)).
Qed.

(** C4. [Get] hands the error of the store through as it is: whatever
    error the read of the result key gives is the error returned.  When
    the store answers, that error is the sentinel [NilError] exactly when
    the result key is absent or expired; a key of another type and a
    failed round trip give other errors. *)
Theorem Get_returns_store_error (e : env) (id : string) (r : Results) :
  (∀ err, (process e (CGet (resultPrefix +:+ id)) (conn r)).2 = inl err →
          (Get e id r).2 = inl err) ∧
  (∀ msg, link e = Some msg → (Get e id r).2 = inl (IOError msg)) ∧
  (link e = None →
     ((Get e id r).2 = inl NilError ↔
      live (now e) (resultPrefix +:+ id) (server (conn r)) = None)).
Proof.
  rewrite Get_result. split; [by intros err ->|].
  rewrite process_result. split; [by intros msg ->|].
  intros ->. rewrite run_CGet. unfold NilError.
  destruct (live _ _ _) as [[b|z]|]; simpl; split; done.
Qed.

(** A witness: a missing key, a stored payload and a dead link. *)
Lemma Get_returns_store_error_witness :
  let r := (New DefaultRedis [] ∅).1 in
  (Get (Env 5 None) "job-1" r).2 = inl NilError ∧
  (Get (Env 5 (Some "timeout")) "job-1" r).2 = inl (IOError "timeout").
Proof.
  intros r. split.
  - apply (Get_returns_store_error (Env 5 None) "job-1" r); reflexivity.
  - apply (Get_returns_store_error (Env 5 (Some "timeout")) "job-1" r).
    reflexivity.
Defined.

(** ** Pipelines *)

Lemma roundtrip_trips e q cn : trips (roundtrip e q cn).1 = trips cn ++ [q].
Proof.
  unfold roundtrip. destruct (link e); [done|].
  by destruct (run_batch (now e) q (server cn)).
Qed.

Lemma roundtrip_server e q cn :
  server (roundtrip e q cn).1 =
  match link e with
  | Some _ => server cn
  | None => (run_batch (now e) q (server cn)).1
  end.
Proof.
  unfold roundtrip. destruct (link e); [done|].
  by destruct (run_batch (now e) q (server cn)).
Qed.

Lemma roundtrip_error e q cn :
  (roundtrip e q cn).2 =
  match link e with
  | Some msg => Some (IOError msg)
  | None => (run_batch (now e) q (server cn)).2
  end.
Proof.
  unfold roundtrip. destruct (link e); [done|].
  by destruct (run_batch (now e) q (server cn)).
Qed.

Lemma DeleteJob_unfold e id r :
  DeleteJob e id r =
  let rt := roundtrip e (delete_batch id) (conn r) in
  (with_conn rt.1 (log LDebug "deleting job" r), rt.2).
Proof.
  unfold DeleteJob, Exec, queue, Pipeline, delete_batch. simpl.
  destruct (roundtrip e _ (conn r)) as [cn err]. simpl. by destruct err.
Qed.

(** C2. Whatever the batching mode, [DeleteJob] sends its three
    commands at once as one batch of its own: one round trip is added,
    it holds exactly the two removals and the deletion, the shared queue
    is left as it was, and when the link is up the keyspace is the one
    the batch produces. *)
Theorem DeleteJob_single_round_trip (e : env) (id : string) (r : Results) :
  let r' := (DeleteJob e id r).1 in
  trips (conn r') = trips (conn r) ++ [delete_batch id] ∧
  pipe r' = pipe r ∧
  opts r' = opts r ∧
  server (conn r') =
    match link e with
    | Some _ => server (conn r)
    | None => (run_batch (now e) (delete_batch id) (server (conn r))).1
    end.
Proof.
  rewrite DeleteJob_unfold. simpl.
  rewrite roundtrip_trips, roundtrip_server. done.
Qed.

Lemma pipe_Exec_unfold e r :
  pipe_Exec e r =
  match pipe r with
  | [] => (with_pipe [] r, None)
  | _ => let rt := roundtrip e (pipe r) (conn r) in
         (with_pipe [] (with_conn rt.1 r), rt.2)
  end.
Proof.
  unfold pipe_Exec, Exec. destruct (pipe r) as [|c q]; [by destruct r|].
  by destruct (roundtrip e _ (conn r)).
Qed.

(** ** The pipe flusher *)

Lemma execPipe_tick_empty e r : pipe r = [] → execPipe_tick e r = r.
Proof. unfold execPipe_tick. by intros ->. Qed.

Lemma execPipe_tick_nonempty e r :
  pipe r ≠ [] →
  let rt := roundtrip e (pipe r) (conn r) in
  let r' := execPipe_tick e r in
  conn r' = rt.1 ∧
  trips (conn r') = trips (conn r) ++ [pipe r] ∧
  pipe r' = [] ∧
  lo r' = lo r ++ Log LDebug "submitting redis pipe" ::
            (if rt.2 is Some _
             then [Log LError "could not execute redis pipe"] else []).
Proof.
  unfold execPipe_tick. intros Hq. simpl. destruct (decide _) as [Hl|_].
  { destruct (pipe r); [done|discriminate Hl]. }
  rewrite pipe_Exec_unfold. simpl.
  destruct (pipe r) as [|c q] eqn:Hp; [done|]. simpl.
  pose proof (roundtrip_trips e (c :: q) (conn r)) as Ht.
  destruct (roundtrip e (c :: q) (conn r)) as [cn [err|]]; simpl in *;
    repeat split; try done; by rewrite <- app_assoc.
Qed.

(** C8. A tick of the flusher on an empty queue changes nothing: no
    command is sent and nothing is logged.  On a queue that is not empty
    the whole queue goes out as one round trip and the queue is emptied;
    when that round trip reports an error the error is logged, and the
    commands are neither sent again nor put back. *)
Theorem execPipe_tick_flushes (e : env) (r : Results) :
  (pipe r = [] → execPipe_tick e r = r) ∧
  (pipe r ≠ [] →
   let rt := roundtrip e (pipe r) (conn r) in
   let r' := execPipe_tick e r in
   conn r' = rt.1 ∧
   trips (conn r') = trips (conn r) ++ [pipe r] ∧
   pipe r' = [] ∧
   lo r' = lo r ++ Log LDebug "submitting redis pipe" ::
             (if rt.2 is Some _
              then [Log LError "could not execute redis pipe"] else [])).
Proof.
  split; [apply execPipe_tick_empty|apply execPipe_tick_nonempty].
Qed.

(** A witness: one queued write, flushed over a healthy link. *)
Lemma execPipe_tick_flushes_witness :
  let r := MkResults DefaultRedis [] (MkConn ∅ []) [CDel "k"] in
  pipe (execPipe_tick (Env 1 None) r) = [] ∧
  execPipe_tick (Env 1 None) (with_pipe [] r) = with_pipe [] r.
Proof.
  intros r. split.
  - apply (execPipe_tick_flushes (Env 1 None) r). discriminate.
  - apply (execPipe_tick_flushes (Env 1 None) (with_pipe [] r)). reflexivity.
Defined.




(** ** Direct writes *)

Lemma conn_do_unfold e c r :
  conn_do e c r = (with_conn (process e c (conn r)).1 r, (process e c (conn r)).2).
Proof. unfold conn_do. by destruct (process e c (conn r)). Qed.

Lemma Set_direct e id b r :
  PipePeriod (opts r) = 0 →
  Set_ e id b r =
  let c := CSet (resultPrefix +:+ id) b (Expiry (opts r)) in
  (with_conn (process e c (conn r)).1 (log LDebug "setting result for job" r),
   Err (process e c (conn r)).2).
Proof.
  intros Hp. unfold Set_. simpl. rewrite decide_False by (by rewrite Hp; intros []).
  rewrite conn_do_unfold. done.
Qed.

Lemma SetSuccess_direct e id r :
  PipePeriod (opts r) = 0 →
  SetSuccess e id r =
  let c := CZAdd (resultPrefix +:+ success) (float64 (now e)) id in
  (with_conn (process e c (conn r)).1
     (log LDebug "setting job as successful" r),
   Err (process e c (conn r)).2).
Proof.
  intros Hp. unfold SetSuccess. simpl.
  rewrite decide_False by (by rewrite Hp; intros []).
  rewrite conn_do_unfold. done.
Qed.

Lemma SetFailed_direct e id r :
  PipePeriod (opts r) = 0 →
  SetFailed e id r =
  let c := CZAdd (resultPrefix +:+ failed) (float64 (now e)) id in
  (with_conn (process e c (conn r)).1 (log LDebug "setting job as failed" r),
   Err (process e c (conn r)).2).
Proof.
  intros Hp. unfold SetFailed. simpl.
  rewrite decide_False by (by rewrite Hp; intros []).
  rewrite conn_do_unfold. done.
Qed.

(** C10. The result record of [id] lives under the prefix followed by
    [id], the two indexes under the prefix followed by "success" and
    "failed".  So [Set] for the job named "success" (or "failed") writes
    its payload under the key of that index: after it the key holds the
    payload, a string, and no sorted set. *)
Theorem result_keys_overlap_index_keys
    (e : env) (id : string) (b : bytes) (r : Results) :
  PipePeriod (opts r) = 0 →
  link e = None →
  trips (conn (Set_ e id b r).1) =
    trips (conn r) ++ [[CSet ("tq:res:" +:+ id) b (Expiry (opts r))]] ∧
  trips (conn (SetSuccess e id r).1) =
    trips (conn r) ++ [[CZAdd ("tq:res:" +:+ "success") (float64 (now e)) id]] ∧
  trips (conn (SetFailed e id r).1) =
    trips (conn r) ++ [[CZAdd ("tq:res:" +:+ "failed") (float64 (now e)) id]] ∧
  live (now e) ("tq:res:" +:+ "success") (server (conn (Set_ e "success" b r).1))
    = Some (VString b) ∧
  live (now e) ("tq:res:" +:+ "failed") (server (conn (Set_ e "failed" b r).1))
    = Some (VString b).
Proof.
  intros Hp Hl.
  rewrite !(Set_direct _ _ _ _ Hp), (SetSuccess_direct _ _ _ Hp),
    (SetFailed_direct _ _ _ Hp).
  cbn [fst conn with_conn log]. rewrite !process_trips, !process_server, Hl.
  repeat split; apply run_CSet_live.
Qed.

(** A witness: the success index holds a job; [Set] for the job named
    "success" replaces the index, and [GetSuccess] is then refused. *)
Lemma result_keys_overlap_index_keys_witness :
  let r0 := (New DefaultRedis [] ∅).1 in
  let r1 := (SetSuccess (Env 10 None) "job-1" r0).1 in
  let r2 := (Set_ (Env 20 None) "success" [] r1).1 in
  (GetSuccess (Env 30 None) r1).2 = inr ["job-1"] ∧
  (GetSuccess (Env 30 None) r2).2 = inl WrongType ∧
  live 20 ("tq:res:" +:+ "success") (server (conn r2)) = Some (VString []).
Proof.
  intros r0 r1 r2. split; [reflexivity|]. split; [reflexivity|].
  apply (result_keys_overlap_index_keys (Env 20 None) "success" [] r1);
    reflexivity.
Defined.

(** ** Sorted sets *)

Global Instance zrev_le_total : Total zrev_le.
Proof.
  intros [m1 s1] [m2 s2]. unfold zrev_le; simpl.
  destruct (Z.lt_trichotomy s1 s2) as [?|[->|?]]; [by right; left| |by left; left].
  destruct (total String.le m1 m2); [right|left]; by right.
Qed.

Global Instance zrev_le_trans : Transitive zrev_le.
Proof.
  intros [m1 s1] [m2 s2] [m3 s3]. unfold zrev_le; simpl.
  intros [?|[-> H12]] [?|[-> H23]]; [left; lia..|].
  right. split; [done|]. by etrans.
Qed.

Lemma zrev_le_score a b : zrev_le a b → b.2 ≤ a.2.
Proof. unfold zrev_le. lia. Qed.

Lemma StronglySorted_weaken {A} (R1 R2 : relation A) (l : list A) :
  (∀ a b, R1 a b → R2 a b) → StronglySorted R1 l → StronglySorted R2 l.
Proof.
  intros HR. induction 1 as [|a l Hl IH Ha]; constructor; [done|].
  eapply Forall_impl; [exact Ha|]. intros b. apply HR.
Qed.

(** A reverse range returns the entries in range, each once per
    occurrence, from the highest score down. *)
Lemma zset_rev_range_spec lo hi (z : zset) :
  zset_rev_range lo hi z ≡ₚ filter (in_range lo hi) z ∧
  StronglySorted (λ a b, b.2 ≤ a.2) (zset_rev_range lo hi z).
Proof.
  unfold zset_rev_range. split; [apply merge_sort_Permutation|].
  eapply StronglySorted_weaken; [|apply (StronglySorted_merge_sort zrev_le)].
  intros a b. apply zrev_le_score.
Qed.

Lemma zset_add_once m s (z : zset) :
  filter (λ p, p.1 = m) (zset_add m s z) = [(m, s)].
Proof.
  unfold zset_add. rewrite filter_cons_True by done. f_equal.
  induction z as [|[m' s'] z IH]; [done|].
  rewrite filter_cons. case_decide as Hm; simpl in *.
  - rewrite filter_cons_False by (simpl; congruence). done.
  - done.
Qed.

Lemma zset_add_other m s m' (z : zset) :
  m' ≠ m →
  filter (λ p, p.1 = m') (zset_add m s z) = filter (λ p, p.1 = m') z.
Proof.
  intros Hne. unfold zset_add.
  rewrite filter_cons_False by (simpl; congruence).
  induction z as [|[m'' s''] z IH]; [done|].
  rewrite (filter_cons (λ p, p.1 ≠ m)). case_decide as Hm; simpl in *.
  - rewrite !filter_cons. case_decide; by rewrite IH.
  - subst m''.
    rewrite (filter_cons_False (λ p, p.1 = m')) by (simpl; congruence). done.
Qed.

(** What [ZADD] leaves under its key, when it is not refused. *)
Lemma run_CZAdd now k s m (d : database) :
  (∀ b, live now k d ≠ Some (VString b)) →
  (run now (CZAdd k s m) d).2 =
    inr (RInt (if decide (m ∈ (index now k d).*1) then 0 else 1)) ∧
  index now k (run now (CZAdd k s m) d).1 = zset_add m s (index now k d).
Proof.
  intros Hk. unfold index. simpl.
  destruct (live now k d) as [[b|z]|] eqn:Hl.
  - by destruct (Hk b).
  - apply live_Some in Hl as [t Ht]. rewrite Ht. simpl. split.
    + done.
    + unfold live. rewrite lookup_insert_eq. simpl.
      rewrite lookup_expireIfNeeded, decide_True in Ht by done.
      destruct (d !! k) as [[v' t']|]; [|done]. simpl in Ht.
      destruct (expired now _) eqn:He; [done|].
      injection Ht as -> ->. unfold expired in *. simpl in *. by rewrite He.
  - apply live_None in Hl. rewrite Hl. simpl. split.
    + done.
    + unfold live. rewrite lookup_insert_eq. done.
Qed.

Lemma run_CZAdd_refused now k s m (d : database) b :
  live now k d = Some (VString b) →
  run now (CZAdd k s m) d = (expireIfNeeded now k d, inl WrongType).
Proof.
  intros Hl. simpl. apply live_Some in Hl as [t Ht]. by rewrite Ht.
Qed.

Lemma run_CZAdd_ok now k s m (d : database) re :
  (run now (CZAdd k s m) d).2 = inr re →
  ∀ b, live now k d ≠ Some (VString b).
Proof.
  intros Hr b Hl. by rewrite (run_CZAdd_refused _ _ _ _ _ _ Hl) in Hr.
Qed.

Lemma run_batch_app now q1 q2 (d : database) :
  run_batch now (q1 ++ q2) d =
  ((run_batch now q2 (run_batch now q1 d).1).1,
   if (run_batch now q1 d).2 is Some x then Some x
   else (run_batch now q2 (run_batch now q1 d).1).2).
Proof.
  revert d. induction q1 as [|c q1 IH]; intros d; simpl.
  - by destruct (run_batch now q2 d).
  - destruct (run now c d) as [d1 res]. rewrite IH. simpl.
    destruct (run_batch now q1 d1) as [d2 err1]. simpl.
    destruct (run_batch now q2 d2) as [d3 err2]. simpl.
    destruct res; [done|]. by destruct err1.
Qed.

Lemma run_batch_one now c (d : database) :
  run_batch now [c] d = ((run now c d).1, Err (run now c d).2).
Proof. simpl. destruct (run now c d) as [d1 [err|re]]; done. Qed.

(** ** The outcome indexes *)

Lemma SetSuccess_queued e id r :
  PipePeriod (opts r) ≠ 0 →
  SetSuccess e id r =
  (with_pipe (pipe r ++ [CZAdd (resultPrefix +:+ success) (float64 (now e)) id])
     (log LDebug "setting job as successful" r), None).
Proof. intros Hp. unfold SetSuccess. simpl. by rewrite decide_True by done. Qed.

Lemma SetFailed_queued e id r :
  PipePeriod (opts r) ≠ 0 →
  SetFailed e id r =
  (with_pipe (pipe r ++ [CZAdd (resultPrefix +:+ failed) (float64 (now e)) id])
     (log LDebug "setting job as failed" r), None).
Proof. intros Hp. unfold SetFailed. simpl. by rewrite decide_True by done. Qed.

Lemma Set_queued e id b r :
  PipePeriod (opts r) ≠ 0 →
  Set_ e id b r =
  (with_pipe (pipe r ++ [CSet (resultPrefix +:+ id) b (Expiry (opts r))])
     (log LDebug "setting result for job" r), None).
Proof. intros Hp. unfold Set_. simpl. by rewrite decide_True by done. Qed.

(** A [ZADD] that is not refused leaves its member once, with its
    score. *)
Lemma run_CZAdd_once now k s m (d : database) re :
  (run now (CZAdd k s m) d).2 = inr re →
  filter (λ p, p.1 = m) (index now k (run now (CZAdd k s m) d).1) = [(m, s)].
Proof.
  intros Hr. pose proof (run_CZAdd_ok _ _ _ _ _ _ Hr) as Hk.
  destruct (run_CZAdd now k s m d Hk) as [_ ->]. apply zset_add_once.
Qed.

Lemma execPipe_tick_server e r :
  pipe r ≠ [] → link e = None →
  server (conn (execPipe_tick e r)) =
    (run_batch (now e) (pipe r) (server (conn r))).1.
Proof.
  intros Hq Hl. destruct (execPipe_tick_nonempty e r Hq) as [-> _].
  by rewrite roundtrip_server, Hl.
Qed.

(** C5, as the code has it.  After two calls of [SetSuccess] for the
    same job, both applied, the success index holds that job exactly
    once, and its score is the later call's timestamp as converted by
    [float64]: the nearest double, which is the timestamp itself only as
    far as doubles are exact.  Directly, "applied" is that both calls
    return no error; batched, that the flush reports none. *)
Theorem SetSuccess_twice_one_entry (e1 e2 e3 : env) (id : string) (r : Results) :
  let r1 := (SetSuccess e1 id r).1 in
  let r2 := (SetSuccess e2 id r1).1 in
  let key := resultPrefix +:+ success in
  (PipePeriod (opts r) = 0 →
   (SetSuccess e1 id r).2 = None →
   (SetSuccess e2 id r1).2 = None →
   filter (λ p, p.1 = id) (index (now e2) key (server (conn r2)))
     = [(id, float64 (now e2))]) ∧
  (PipePeriod (opts r) ≠ 0 →
   link e3 = None →
   (roundtrip e3 (pipe r2) (conn r2)).2 = None →
   filter (λ p, p.1 = id)
     (index (now e3) key (server (conn (execPipe_tick e3 r2))))
     = [(id, float64 (now e2))]).
Proof.
  intros r1 r2 key. split.
  - intros Hp _ H2. unfold r2 in *.
    assert (PipePeriod (opts r1) = 0) as Hp1.
    { unfold r1. by rewrite (SetSuccess_direct _ _ _ Hp). }
    rewrite (SetSuccess_direct _ _ _ Hp1) in *. cbn [fst snd conn with_conn log] in *.
    rewrite process_server. rewrite process_result in H2.
    destruct (link e2); [done|].
    destruct (run (now e2) _ (server (conn r1))).2 as [err|re] eqn:Hr; [done|].
    by eapply run_CZAdd_once.
  - intros Hp Hl Hrt.
    assert (PipePeriod (opts r1) ≠ 0) as Hp1.
    { unfold r1. by rewrite (SetSuccess_queued _ _ _ Hp). }
    assert (pipe r2 = (pipe r ++ [CZAdd key (float64 (now e1)) id])
                        ++ [CZAdd key (float64 (now e2)) id]) as Hq.
    { unfold r2. rewrite (SetSuccess_queued _ _ _ Hp1). unfold r1.
      by rewrite (SetSuccess_queued _ _ _ Hp). }
    assert (server (conn r2) = server (conn r)) as Hs.
    { unfold r2. rewrite (SetSuccess_queued _ _ _ Hp1). unfold r1.
      by rewrite (SetSuccess_queued _ _ _ Hp). }
    rewrite execPipe_tick_server by (by rewrite ?Hq; try intros ?%app_nil_r'; eauto using app_cons_not_nil).
    rewrite roundtrip_error, Hl in Hrt. revert Hrt.
    rewrite Hq, Hs, run_batch_app, run_batch_one. cbn [fst snd].
    destruct (run_batch _ _ _) as [d1 [err|]]; [done|]. cbn [fst snd].
    destruct (run (now e3) _ d1).2 as [err|re] eqn:Hr; [done|]. intros _.
    by eapply run_CZAdd_once.
Qed.

(** A witness: the same job recorded twice, directly and through the
    queue. *)
Lemma SetSuccess_twice_one_entry_witness :
  let batched := {| Addrs := []; Password := ""; DB := 0; DialTimeout := 0;
                    ReadTimeout := 0; WriteTimeout := 0; IdleTimeout := 0;
                    Expiry := 0; MetaExpiry := 0; MinIdleConns := 0;
                    PipePeriod := 200 |} in
  let r := (New DefaultRedis [] ∅).1 in
  let q := (New batched [] ∅).1 in
  let r2 := (SetSuccess (Env 20 None) "a" (SetSuccess (Env 10 None) "a" r).1).1 in
  let q2 := (SetSuccess (Env 20 None) "a" (SetSuccess (Env 10 None) "a" q).1).1 in
  filter (λ p, p.1 = "a") (index 20 (resultPrefix +:+ success) (server (conn r2)))
    = [("a", float64 20)] ∧
  filter (λ p, p.1 = "a")
    (index 30 (resultPrefix +:+ success)
       (server (conn (execPipe_tick (Env 30 None) q2))))
    = [("a", float64 20)].
Proof.
  intros batched r q r2 q2. split.
  - apply (proj1 (SetSuccess_twice_one_entry (Env 10 None) (Env 20 None)
                    (Env 30 None) "a" r)); reflexivity.
  - apply (proj2 (SetSuccess_twice_one_entry (Env 10 None) (Env 20 None)
                    (Env 30 None) "a" q)); [by vm_compute|reflexivity..].
Defined.

(** C5 as stated fails: a job recorded twice, the second time at
    1700000000000000003 ns, is held with the score 1700000000000000000,
    not with that timestamp. *)
Lemma SetSuccess_score_is_rounded :
  let e1 := Env 1700000000000000001 None in
  let e2 := Env 1700000000000000003 None in
  let r := (New DefaultRedis [] ∅).1 in
  let r1 := (SetSuccess e1 "job-1" r).1 in
  let r2 := (SetSuccess e2 "job-1" r1).1 in
  (SetSuccess e1 "job-1" r).2 = None ∧
  (SetSuccess e2 "job-1" r1).2 = None ∧
  index (now e2) (resultPrefix +:+ success) (server (conn r2))
    = [("job-1", 1700000000000000000)] ∧
  ¬ (filter (λ p, p.1 = "job-1")
       (index (now e2) (resultPrefix +:+ success) (server (conn r2)))
     = [("job-1", now e2)]).
Proof.
  intros e1 e2 r r1 r2.
  assert (index (now e2) (resultPrefix +:+ success) (server (conn r2))
          = [("job-1", 1700000000000000000)]) as H by (vm_compute; reflexivity).
  split; [reflexivity|]. split; [reflexivity|]. split; [exact H|].
  rewrite H. vm_compute. discriminate.
Qed.

Lemma run_CZRevRangeByScore now k lo hi (d : database) :
  (run now (CZRevRangeByScore k lo hi) d).2 =
  match live now k d with
  | Some (VString _) => inl WrongType
  | _ => inr (RList (zset_rev_range (float64 lo) (float64 hi)
                       (index now k d)).*1)
  end.
Proof.
  simpl. unfold index, live.
  rewrite lookup_expireIfNeeded, decide_True by done.
  destruct (d !! k) as [[v t]|]; [|done]. simpl.
  destruct (expired now _); [done|]. by destruct v.
Qed.

Lemma float64_0 : float64 0 = 0.
Proof. reflexivity. Qed.

Lemma GetSuccess_result e r :
  (GetSuccess e r).2 =
  Result (process e (CZRevRangeByScore (resultPrefix +:+ success) 0 (now e))
            (conn r)).2.
Proof.
  unfold GetSuccess. rewrite conn_do_unfold. simpl.
  by destruct (Result _).
Qed.

Lemma GetFailed_result e r :
  (GetFailed e r).2 =
  Result (process e (CZRevRangeByScore (resultPrefix +:+ failed) 0 (now e))
            (conn r)).2.
Proof.
  unfold GetFailed. rewrite conn_do_unfold. simpl.
  by destruct (Result _).
Qed.

Lemma range_query_spec e k cn :
  link e = None →
  (∀ b, live (now e) k (server cn) ≠ Some (VString b)) →
  ∃ l : zset,
    Result (process e (CZRevRangeByScore k 0 (now e)) cn).2 = inr l.*1 ∧
    l ≡ₚ filter (in_range 0 (float64 (now e))) (index (now e) k (server cn)) ∧
    StronglySorted (λ a b, b.2 ≤ a.2) l.
Proof.
  intros Hl Hk. rewrite process_result, Hl, run_CZRevRangeByScore, float64_0.
  exists (zset_rev_range 0 (float64 (now e)) (index (now e) k (server cn))).
  split; [|apply zset_rev_range_spec].
  destruct (live _ _ _) as [[b|z]|] eqn:Hlive; [by destruct (Hk b)|done..].
Qed.

(** C6, as the code has it.  When the store answers and the index key
    holds no result payload, [GetSuccess] (and [GetFailed] likewise)
    returns the members of the entries of its index whose score lies
    between 0 and the current instant as the store reads it, a double:
    all of them and no others, from the highest score down.  An entry
    above that double is left out; one above the instant and not above
    its double is returned. *)
Theorem GetSuccess_GetFailed_in_range (e : env) (r : Results) :
  link e = None →
  ((∀ b, live (now e) (resultPrefix +:+ success) (server (conn r))
           ≠ Some (VString b)) →
   ∃ l : zset,
     (GetSuccess e r).2 = inr l.*1 ∧
     l ≡ₚ filter (in_range 0 (float64 (now e)))
            (index (now e) (resultPrefix +:+ success) (server (conn r))) ∧
     StronglySorted (λ a b, b.2 ≤ a.2) l) ∧
  ((∀ b, live (now e) (resultPrefix +:+ failed) (server (conn r))
           ≠ Some (VString b)) →
   ∃ l : zset,
     (GetFailed e r).2 = inr l.*1 ∧
     l ≡ₚ filter (in_range 0 (float64 (now e)))
            (index (now e) (resultPrefix +:+ failed) (server (conn r))) ∧
     StronglySorted (λ a b, b.2 ≤ a.2) l).
Proof.
  intros Hl. rewrite GetSuccess_result, GetFailed_result.
  split; intros Hk; by apply range_query_spec.
Qed.

(** A witness: three jobs recorded, read back newest first. *)
Lemma GetSuccess_GetFailed_in_range_witness :
  let r0 := (New DefaultRedis [] ∅).1 in
  let r1 := (SetSuccess (Env 10 None) "a" r0).1 in
  let r2 := (SetSuccess (Env 30 None) "b" r1).1 in
  let r3 := (SetSuccess (Env 20 None) "c" r2).1 in
  (GetSuccess (Env 40 None) r3).2 = inr ["b"; "c"; "a"] ∧
  ∃ l : zset,
    (GetSuccess (Env 25 None) r3).2 = inr l.*1 ∧
    l ≡ₚ filter (in_range 0 (float64 25))
           (index 25 (resultPrefix +:+ success) (server (conn r3))) ∧
    StronglySorted (λ a b, b.2 ≤ a.2) l.
Proof.
  intros r0 r1 r2 r3. split; [reflexivity|].
  apply (GetSuccess_GetFailed_in_range (Env 25 None) r3 eq_refl).
  intros b. vm_compute. discriminate.
Defined.

(** C6 as stated fails: a job recorded at 1700000000000000200 ns gets the
    score 1700000000000000256; ten nanoseconds later that score is above
    the current instant, and [GetSuccess] returns the job. *)
Lemma GetSuccess_returns_score_above_now :
  let r0 := (New DefaultRedis [] ∅).1 in
  let r1 := (SetSuccess (Env 1700000000000000200 None) "job-1" r0).1 in
  let now := 1700000000000000210 in
  index now (resultPrefix +:+ success) (server (conn r1))
    = [("job-1", 1700000000000000256)] ∧
  now < 1700000000000000256 ∧
  (GetSuccess (Env now None) r1).2 = inr ["job-1"].
Proof. vm_compute. repeat split; reflexivity. Qed.

(** ** Frame properties of the server *)

Lemma live_insert_ne now k k' en (d : database) :
  k ≠ k' → live now k' (<[k := en]> d) = live now k' d.
Proof. intros Hk. unfold live. by rewrite lookup_insert_ne. Qed.

Lemma live_delete_ne now k k' (d : database) :
  k ≠ k' → live now k' (delete k d) = live now k' d.
Proof. intros Hk. unfold live. by rewrite lookup_delete_ne. Qed.

Lemma live_store_zset_ne now k k' z t (d : database) :
  k ≠ k' → live now k' (store_zset k z t d) = live now k' d.
Proof.
  intros Hk. unfold store_zset.
  destruct z; [by apply live_delete_ne|by apply live_insert_ne].
Qed.

(** A command leaves every key but its own as it found it. *)
Lemma run_frame now c k' (d : database) :
  command_key c ≠ k' → live now k' (run now c d).1 = live now k' d.
Proof.
  intros Hk. rewrite <- (live_expireIfNeeded now (command_key c) k' d).
  destruct c as [k|k b ex|k|k s m|k ms|k lo hi|k lo hi]; simpl in *.
  - by destruct (expireIfNeeded now k d !! k) as [[[b|z] t]|].
  - by apply live_insert_ne.
  - by apply live_delete_ne.
  - destruct (expireIfNeeded now k d !! k) as [[[b|z] t]|]; simpl;
      [done|by apply live_insert_ne..].
  - destruct (expireIfNeeded now k d !! k) as [[[b|z] t]|]; simpl;
      [done|by apply live_store_zset_ne|done].
  - by destruct (expireIfNeeded now k d !! k) as [[[b|z] t]|].
  - destruct (expireIfNeeded now k d !! k) as [[[b|z] t]|]; simpl;
      [done|by apply live_store_zset_ne|done].
Qed.

Lemma run_frame_index now c k' (d : database) :
  command_key c ≠ k' → index now k' (run now c d).1 = index now k' d.
Proof. intros Hk. unfold index. by rewrite run_frame. Qed.

Lemma index_store_zset now k z t (d : database) :
  expired now (Entry (VZSet z) t) = false →
  index now k (store_zset k z t d) = z.
Proof.
  intros He. unfold index, live, store_zset. destruct z as [|p z].
  - by rewrite lookup_delete_eq.
  - rewrite lookup_insert_eq. unfold expired in *. simpl in *. by rewrite He.
Qed.

(** The sorted set a filtering command leaves under its key. *)
Lemma run_filter_index now k (f : zset → zset) (d : database) :
  f [] = [] →
  index now k
    (match expireIfNeeded now k d !! k with
     | None => expireIfNeeded now k d
     | Some (Entry (VZSet z) t) => store_zset k (f z) t (expireIfNeeded now k d)
     | Some (Entry (VString _) _) => expireIfNeeded now k d
     end) = f (index now k d).
Proof.
  intros Hf.
  pose proof (lookup_expireIfNeeded now k k d) as Hlk.
  rewrite decide_True in Hlk by done.
  assert (index now k (expireIfNeeded now k d) = index now k d) as Hix.
  { unfold index. by rewrite live_expireIfNeeded. }
  destruct (d !! k) as [[v t]|] eqn:Hdk.
  - destruct (expired now (Entry v t)) eqn:He; rewrite Hlk.
    + rewrite Hix. unfold index, live. by rewrite Hdk, He.
    + destruct v as [b|z].
      * rewrite Hix. unfold index, live. by rewrite Hdk, He.
      * rewrite index_store_zset by done.
        unfold index, live. by rewrite Hdk, He.
  - rewrite Hlk, Hix. unfold index, live. by rewrite Hdk.
Qed.

Lemma run_CZRem_index now k ms (d : database) :
  index now k (run now (CZRem k ms) d).1 =
  zset_rem (arg_string <$> ms) (index now k d).
Proof.
  rewrite <- (run_filter_index now k (zset_rem (arg_string <$> ms)) d) by done.
  simpl. by destruct (expireIfNeeded now k d !! k) as [[[b|z] t]|].
Qed.

Lemma run_CZRemRangeByScore_index now k lo hi (d : database) :
  index now k (run now (CZRemRangeByScore k lo hi) d).1 =
  zset_rem_range (float64 lo) (float64 hi) (index now k d).
Proof.
  rewrite <- (run_filter_index now k
                (zset_rem_range (float64 lo) (float64 hi)) d) by done.
  simpl. by destruct (expireIfNeeded now k d !! k) as [[[b|z] t]|].
Qed.

Lemma result_key_inj id1 id2 :
  resultPrefix +:+ id1 = resultPrefix +:+ id2 → id1 = id2.
Proof. apply (inj (String.app resultPrefix)). Qed.

Lemma index_keys_differ : resultPrefix +:+ success ≠ resultPrefix +:+ failed.
Proof. intros H%result_key_inj. discriminate. Qed.

Lemma run_batch_cons now c q (d : database) :
  (run_batch now (c :: q) d).1 = (run_batch now q (run now c d).1).1.
Proof.
  simpl. destruct (run now c d) as [d1 res]. simpl.
  by destruct (run_batch now q d1).
Qed.

(** ** DeleteJob *)

(** What a delivered [DeleteJob] leaves of the two indexes, for a job
    whose name is not that of an index: the index without the members
    ["1"] and [id]. *)
Lemma DeleteJob_index e id r k :
  id ≠ success → id ≠ failed → link e = None →
  k = resultPrefix +:+ success ∨ k = resultPrefix +:+ failed →
  index (now e) k (server (conn (DeleteJob e id r).1)) =
  zset_rem ["1"; id] (index (now e) k (server (conn r))).
Proof.
  intros Hs Hf Hl Hk.
  rewrite DeleteJob_unfold. cbn [fst conn with_conn].
  rewrite roundtrip_server, Hl. unfold delete_batch. rewrite !run_batch_cons.
  cbn [run_batch fst].
  destruct Hk as [-> | ->].
  - rewrite run_frame_index by (simpl; by intros ?%result_key_inj).
    rewrite run_frame_index by (simpl; by intros ?%result_key_inj).
    by rewrite run_CZRem_index.
  - rewrite run_frame_index by (simpl; by intros ?%result_key_inj).
    rewrite run_CZRem_index.
    by rewrite run_frame_index by (simpl; by intros ?%result_key_inj).
Qed.

Lemma DeleteJob_undelivered e id r msg :
  link e = Some msg → server (conn (DeleteJob e id r).1) = server (conn r).
Proof.
  intros Hl. rewrite DeleteJob_unfold. cbn [fst conn with_conn].
  by rewrite roundtrip_server, Hl.
Qed.

(** C1, as the code has it by design.  For a job named neither
    "success" nor "failed", [DeleteJob] takes the job out of both
    indexes when its round trip is delivered, and every other member,
    the member "1" apart, is in each index after the call exactly as
    before, with its score.  (The member "1" is also named in the two
    removals; what becomes of it is left out here.) *)
Theorem DeleteJob_keeps_other_members
    (e : env) (id : string) (r : Results) (k : string) :
  id ≠ success → id ≠ failed →
  k = resultPrefix +:+ success ∨ k = resultPrefix +:+ failed →
  let before := index (now e) k (server (conn r)) in
  let after := index (now e) k (server (conn (DeleteJob e id r).1)) in
  (∀ m s, m ≠ id → m ≠ "1" → ((m, s) ∈ after ↔ (m, s) ∈ before)) ∧
  (link e = None → ∀ s, (id, s) ∉ after).
Proof.
  intros Hs Hf Hk before after. unfold before, after.
  destruct (link e) as [msg|] eqn:Hl.
  - rewrite (DeleteJob_undelivered _ _ _ _ Hl). split; done.
  - rewrite (DeleteJob_index _ _ _ _ Hs Hf Hl Hk). unfold zset_rem. split.
    + intros m s Hm H1. rewrite list_elem_of_filter. simpl.
      rewrite !not_elem_of_cons. split; [by intros [_ ?]|].
      intros Hin. repeat split; [done..|apply not_elem_of_nil|done].
    + intros _ s [Hn _]%list_elem_of_filter. simpl in Hn.
      apply Hn. right. left.
Qed.

(** A witness: three jobs in the failed index; deleting one leaves the
    other two with their scores. *)
Lemma DeleteJob_keeps_other_members_witness :
  let r0 := (New DefaultRedis [] ∅).1 in
  let r1 := (SetFailed (Env 10 None) "job-a" r0).1 in
  let r2 := (SetFailed (Env 20 None) "job-b" r1).1 in
  let r3 := (SetFailed (Env 30 None) "job-c" r2).1 in
  let k := resultPrefix +:+ failed in
  let after := index 40 k (server (conn (DeleteJob (Env 40 None) "job-b" r3).1)) in
  (("job-a", 10) ∈ after ↔ ("job-a", 10) ∈ index 40 k (server (conn r3))) ∧
  ("job-b", 20) ∉ after.
Proof.
  intros r0 r1 r2 r3 k after.
  pose proof (DeleteJob_keeps_other_members (Env 40 None) "job-b" r3 k)
    as [Hkeep Hgone]; [discriminate|discriminate|by right|].
  split; [apply Hkeep; discriminate|apply Hgone; reflexivity].
Defined.

(** C1 as stated fails: deleting the job named "success" deletes the
    key of the success index, and the job recorded there is gone. *)
Lemma DeleteJob_success_drops_index :
  let r0 := (New DefaultRedis [] ∅).1 in
  let r1 := (SetSuccess (Env 10 None) "job-1" r0).1 in
  let r2 := (DeleteJob (Env 20 None) "success" r1).1 in
  index 20 (resultPrefix +:+ success) (server (conn r1)) = [("job-1", 10)] ∧
  index 20 (resultPrefix +:+ success) (server (conn r2)) = [] ∧
  (DeleteJob (Env 20 None) "success" r1).2 = None.
Proof. vm_compute. repeat split; reflexivity. Qed.

(** ** Rounding to a double *)

Lemma round_even_mono e a b :
  0 ≤ e → 0 ≤ a ≤ b → round_even a e ≤ round_even b e.
Proof.
  intros He Hab. unfold round_even.
  assert (0 < 2 ^ e) as HM by (apply Z.pow_pos_nonneg; lia).
  pose proof (Z.div_mod a (2 ^ e) ltac:(lia)) as Ha.
  pose proof (Z.div_mod b (2 ^ e) ltac:(lia)) as Hb.
  pose proof (Z.mod_pos_bound a (2 ^ e) HM) as Hra.
  pose proof (Z.mod_pos_bound b (2 ^ e) HM) as Hrb.
  pose proof (Z.div_le_mono a b (2 ^ e) HM ltac:(lia)) as Hq.
  set (qa := a / 2 ^ e) in *. set (qb := b / 2 ^ e) in *.
  set (ra := a mod 2 ^ e) in *. set (rb := b mod 2 ^ e) in *.
  set (h := 2 ^ (e - 1)) in *.
  apply Z.mul_le_mono_nonneg_r; [lia|].
  destruct (Z.eq_dec qa qb) as [Heq|Hne].
  - assert (ra ≤ rb) as Hr by (rewrite Heq in Ha; lia). rewrite Heq.
    destruct (ra <? h) eqn:H1, (rb <? h) eqn:H2,
      (h <? ra) eqn:H3, (h <? rb) eqn:H4, (Z.even qb); lia.
  - assert (qa + 1 ≤ qb) by lia.
    destruct (ra <? h), (rb <? h), (h <? ra), (h <? rb),
      (Z.even qa), (Z.even qb); lia.
Qed.

Lemma round_even_lower e a :
  0 ≤ e → 0 ≤ a → (a / 2 ^ e) * 2 ^ e ≤ round_even a e.
Proof.
  intros He Ha. unfold round_even.
  assert (0 < 2 ^ e) as HM by (apply Z.pow_pos_nonneg; lia).
  apply Z.mul_le_mono_nonneg_r; [lia|].
  destruct (a mod 2 ^ e <? 2 ^ (e - 1)), (2 ^ (e - 1) <? a mod 2 ^ e),
    (Z.even (a / 2 ^ e)); lia.
Qed.

Lemma round_even_upper e a :
  0 ≤ e → 0 ≤ a → round_even a e ≤ (a / 2 ^ e + 1) * 2 ^ e.
Proof.
  intros He Ha. unfold round_even.
  assert (0 < 2 ^ e) as HM by (apply Z.pow_pos_nonneg; lia).
  apply Z.mul_le_mono_nonneg_r; [lia|].
  destruct (a mod 2 ^ e <? 2 ^ (e - 1)), (2 ^ (e - 1) <? a mod 2 ^ e),
    (Z.even (a / 2 ^ e)); lia.
Qed.

Lemma float64_abs_binade a :
  2 ^ 53 ≤ a →
  2 ^ Z.log2 a ≤ float64_abs a ≤ 2 ^ (Z.log2 a + 1).
Proof.
  intros Ha. unfold float64_abs.
  destruct (a <? 2 ^ 53) eqn:Hlt; [lia|].
  destruct (Z.log2_spec a ltac:(lia)) as [Hlo Hhi].
  assert (53 ≤ Z.log2 a) as Hl.
  { change 53 with (Z.log2 (2 ^ 53)). by apply Z.log2_le_mono. }
  set (e := Z.log2 a - 52) in *.
  assert (0 < 2 ^ e) as HM by (apply Z.pow_pos_nonneg; lia).
  assert (2 ^ Z.log2 a = 2 ^ 52 * 2 ^ e) as Hp1.
  { rewrite <- Z.pow_add_r by lia. f_equal. lia. }
  assert (2 ^ (Z.log2 a + 1) = 2 ^ 53 * 2 ^ e) as Hp2.
  { rewrite <- Z.pow_add_r by lia. f_equal. lia. }
  assert (2 ^ 52 ≤ a / 2 ^ e) as Hq1.
  { apply Z.div_le_lower_bound; lia. }
  assert (a / 2 ^ e < 2 ^ 53) as Hq2.
  { apply Z.div_lt_upper_bound; lia. }
  pose proof (round_even_lower e a ltac:(lia) ltac:(lia)).
  pose proof (round_even_upper e a ltac:(lia) ltac:(lia)).
  rewrite Hp1, Hp2. split.
  - etrans; [|eassumption]. apply Z.mul_le_mono_nonneg_r; lia.
  - etrans; [eassumption|]. apply Z.mul_le_mono_nonneg_r; lia.
Qed.

Lemma float64_abs_mono a b : 0 ≤ a ≤ b → float64_abs a ≤ float64_abs b.
Proof.
  intros Hab.
  destruct (Z.lt_ge_cases b (2 ^ 53)) as [Hb|Hb].
  { unfold float64_abs.
    destruct (a <? 2 ^ 53) eqn:?, (b <? 2 ^ 53) eqn:?; lia. }
  destruct (Z.lt_ge_cases a (2 ^ 53)) as [Ha|Ha].
  { pose proof (float64_abs_binade b Hb) as [Hlo _].
    assert (2 ^ 53 ≤ 2 ^ Z.log2 b).
    { apply Z.pow_le_mono_r; [lia|].
      change 53 with (Z.log2 (2 ^ 53)). by apply Z.log2_le_mono. }
    unfold float64_abs at 1. destruct (a <? 2 ^ 53) eqn:?; lia. }
  pose proof (Z.log2_le_mono a b ltac:(lia)) as Hl.
  destruct (Z.eq_dec (Z.log2 a) (Z.log2 b)) as [Heq|Hne].
  - unfold float64_abs.
    destruct (a <? 2 ^ 53) eqn:?, (b <? 2 ^ 53) eqn:?; try lia.
    rewrite Heq. apply round_even_mono; [|lia].
    assert (53 ≤ Z.log2 b); [|lia].
    change 53 with (Z.log2 (2 ^ 53)). by apply Z.log2_le_mono.
  - pose proof (float64_abs_binade a Ha) as [_ Hhi].
    pose proof (float64_abs_binade b Hb) as [Hlo _].
    assert (2 ^ (Z.log2 a + 1) ≤ 2 ^ Z.log2 b).
    { apply Z.pow_le_mono_r; lia. }
    lia.
Qed.

Lemma float64_abs_nonneg a : 0 ≤ a → 0 ≤ float64_abs a.
Proof.
  intros Ha. destruct (Z.lt_ge_cases a (2 ^ 53)) as [Hlt|Hge].
  - unfold float64_abs. destruct (a <? 2 ^ 53) eqn:?; lia.
  - pose proof (float64_abs_binade a Hge) as [Hlo _].
    assert (0 < 2 ^ Z.log2 a) by (apply Z.pow_pos_nonneg; [lia|apply Z.log2_nonneg]).
    lia.
Qed.

Lemma float64_eq n : float64 n = Z.sgn n * float64_abs (Z.abs n).
Proof. reflexivity. Qed.

(** The conversion keeps the order. *)
Lemma float64_mono n m : n ≤ m → float64 n ≤ float64 m.
Proof.
  intros Hnm.
  assert (∀ k, 0 ≤ k → 0 ≤ float64 k) as Hpos.
  { intros k Hk. rewrite float64_eq.
    pose proof (float64_abs_nonneg (Z.abs k) ltac:(lia)).
    destruct (Z.eq_dec k 0) as [->|]; [done|].
    rewrite Z.sgn_pos by lia. lia. }
  assert (∀ k, k ≤ 0 → float64 k ≤ 0) as Hneg.
  { intros k Hk. rewrite float64_eq.
    pose proof (float64_abs_nonneg (Z.abs k) ltac:(lia)).
    destruct (Z.eq_dec k 0) as [->|]; [done|].
    rewrite Z.sgn_neg by lia. lia. }
  destruct (Z.le_gt_cases 0 n) as [Hn|Hn].
  - destruct (Z.eq_dec n 0) as [->|].
    { etrans; [|apply Hpos; lia]. done. }
    rewrite !float64_eq, !Z.sgn_pos, !Z.abs_eq by lia.
    pose proof (float64_abs_mono n m ltac:(lia)). lia.
  - destruct (Z.le_gt_cases 0 m) as [Hm|Hm].
    { etrans; [apply Hneg; lia|apply Hpos; lia]. }
    rewrite !float64_eq, !Z.sgn_neg, !Z.abs_neq by lia.
    pose proof (float64_abs_mono (- m) (- n) ltac:(lia)). lia.
Qed.

Lemma float64_exact n : Z.abs n < 2 ^ 53 → float64 n = n.
Proof.
  intros Hn. rewrite float64_eq. unfold float64_abs.
  destruct (Z.abs n <? 2 ^ 53) eqn:Hlt; [|lia].
  destruct n; simpl; lia.
Qed.

(** ** The metadata purger *)

Lemma wrap64_small n : - 2 ^ 63 ≤ n < 2 ^ 63 → wrap64 n = n.
Proof. intros Hn. unfold wrap64. rewrite Z.mod_small; lia. Qed.

Lemma expireMeta_tick_queued ttl e r :
  PipePeriod (opts r) ≠ 0 →
  let score := wrap64 (now e - ttl) in
  pipe (expireMeta_tick ttl e r) =
    pipe r ++ [CZRemRangeByScore (resultPrefix +:+ failed) 0 score;
               CZRemRangeByScore (resultPrefix +:+ success) 0 score] ∧
  conn (expireMeta_tick ttl e r) = conn r ∧
  lo (expireMeta_tick ttl e r) =
    lo r ++ [Log LDebug "purging failed results metadata";
             Log LDebug "purging success results metadata"].
Proof.
  intros Hp. unfold expireMeta_tick. simpl. rewrite decide_True by done.
  simpl. by rewrite <- !app_assoc.
Qed.

Lemma expireMeta_tick_direct ttl e r :
  PipePeriod (opts r) = 0 →
  let score := wrap64 (now e - ttl) in
  let c1 := CZRemRangeByScore (resultPrefix +:+ failed) 0 score in
  let c2 := CZRemRangeByScore (resultPrefix +:+ success) 0 score in
  pipe (expireMeta_tick ttl e r) = pipe r ∧
  conn (expireMeta_tick ttl e r) = (process e c2 (process e c1 (conn r)).1).1.
Proof.
  intros Hp. unfold expireMeta_tick. simpl.
  rewrite decide_False by (by rewrite Hp; intros []).
  rewrite conn_do_unfold. simpl.
  destruct (Err (process e _ (conn r)).2); simpl;
    rewrite conn_do_unfold; simpl;
    by destruct (Err (process e _ _).2).
Qed.

Lemma zset_rem_range_covers lo hi (z : zset) p :
  p ∈ zset_rem_range (float64 lo) (float64 hi) z →
  float64 p.2 = p.2 → ¬ (lo ≤ p.2 ≤ hi).
Proof.
  unfold zset_rem_range. intros [Hout _]%list_elem_of_filter Hrep Hin.
  apply Hout. unfold in_range. rewrite <- Hrep.
  split; apply float64_mono; lia.
Qed.

(** C7. The purger is started by [New] exactly when the retention
    window is not zero, with that window as the period of its ticker.
    A tick computes the cutoff, the current time less the window, and
    issues two removals by score from 0 to the cutoff, on the failed
    index and then on the success index: appended to the shared queue
    when batching is on, and otherwise sent at once, one round trip
    each.  Sent over a healthy link they leave in each index no entry
    whose score, a double, lies between 0 and the cutoff. *)
Theorem expireMeta_purges_to_cutoff
    (o : Options) (lg : list logrec) (d0 : database)
    (ttl : Z) (ticks : list env) (e : env) (r : Results) :
  (GoExpireMeta ttl ∈ (New o lg d0).2 ↔ MetaExpiry o ≠ 0 ∧ ttl = MetaExpiry o) ∧
  (0 < ttl →
   NewTicker ttl = Some ttl ∧
   expireMeta ttl ticks r =
     (foldl (λ r e, expireMeta_tick ttl e r)
        (log LInfo "starting results meta purger" r) ticks, Blocked)) ∧
  (0 < ttl < 2 ^ 63 → 0 ≤ now e < 2 ^ 63 →
   let cutoff := now e - ttl in
   let c1 := CZRemRangeByScore (resultPrefix +:+ failed) 0 cutoff in
   let c2 := CZRemRangeByScore (resultPrefix +:+ success) 0 cutoff in
   let r' := expireMeta_tick ttl e r in
   (PipePeriod (opts r) ≠ 0 →
    pipe r' = pipe r ++ [c1; c2] ∧ conn r' = conn r) ∧
   (PipePeriod (opts r) = 0 →
    pipe r' = pipe r ∧
    trips (conn r') = trips (conn r) ++ [[c1]; [c2]] ∧
    (link e = None →
     ∀ k, k = resultPrefix +:+ success ∨ k = resultPrefix +:+ failed →
       index (now e) k (server (conn r')) =
         zset_rem_range 0 (float64 cutoff) (index (now e) k (server (conn r))) ∧
       ∀ p, p ∈ index (now e) k (server (conn r')) →
            float64 p.2 = p.2 → ¬ (0 ≤ p.2 ≤ cutoff)))).
Proof.
  split; [|split].
  - unfold New. destruct (decide (MetaExpiry o ≠ 0)) as [Hm|Hm];
      destruct (decide (PipePeriod o ≠ 0)); simpl;
      rewrite ?elem_of_cons, ?elem_of_nil; split;
      try (intros [[= ->]|[[=]|[]]]; done); try (intros [[= ->]|[]]; done);
      try (by intros []); try (by intros [? ->]; left);
      try (by intros [[=]|[]]).
  - intros Ht. unfold expireMeta, NewTicker.
    destruct (0 <? ttl) eqn:Hlt; [done|lia].
  - intros Ht Hn cutoff c1 c2 r'.
    assert (wrap64 (now e - ttl) = cutoff) as Hw by (apply wrap64_small; lia).
    split.
    + intros Hp. destruct (expireMeta_tick_queued ttl e r Hp) as (Hq & Hc & _).
      simpl in Hq. by rewrite Hw in Hq.
    + intros Hp. destruct (expireMeta_tick_direct ttl e r Hp) as (Hq & Hc).
      simpl in Hc. rewrite Hw in Hc. fold c1 c2 in Hc. fold r' in Hq, Hc.
      split; [done|]. rewrite Hc. split.
      { rewrite !process_trips. by rewrite <- app_assoc. }
      intros Hl k Hk. rewrite !process_server, Hl.
      assert (index (now e) k
                (run (now e) c2 (run (now e) c1 (server (conn r))).1).1 =
              zset_rem_range 0 (float64 cutoff)
                (index (now e) k (server (conn r)))) as Hix.
      { destruct Hk as [-> | ->].
        - unfold c2. rewrite run_CZRemRangeByScore_index.
          rewrite run_frame_index by (simpl; by intros ?%result_key_inj).
          done.
        - rewrite run_frame_index by (simpl; by intros ?%result_key_inj).
          unfold c1. by rewrite run_CZRemRangeByScore_index. }
      split; [done|]. rewrite Hix. intros p Hp'.
      exact (zset_rem_range_covers 0 cutoff _ p Hp').
Qed.

(** A witness: entries recorded at 10 and 50; a tick at 70 with a window
    of 30 purges up to 40. *)
Lemma expireMeta_purges_to_cutoff_witness :
  let r0 := (New DefaultRedis [] ∅).1 in
  let r1 := (SetFailed (Env 10 None) "old" r0).1 in
  let r2 := (SetFailed (Env 50 None) "new" r1).1 in
  let k := resultPrefix +:+ failed in
  index 70 k (server (conn (expireMeta_tick 30 (Env 70 None) r2))) =
    zset_rem_range 0 (float64 40) (index 70 k (server (conn r2))) ∧
  index 70 k (server (conn (expireMeta_tick 30 (Env 70 None) r2))) =
    [("new", 50)].
Proof.
  intros r0 r1 r2 k. split; [|reflexivity].
  pose proof (expireMeta_purges_to_cutoff DefaultRedis [] ∅ 30 []
                (Env 70 None) r2) as (_ & _ & H).
  destruct (H ltac:(lia) ltac:(simpl; lia)) as [_ Hd].
  destruct (Hd eq_refl) as (_ & _ & Hx).
  apply (Hx eq_refl). by right.
Defined.

(** ** A stored record stays *)

Lemma lookup_store_zset_ne k k' z t (d : database) :
  k ≠ k' → store_zset k z t d !! k' = d !! k'.
Proof.
  intros Hk. unfold store_zset.
  destruct z; [by rewrite lookup_delete_ne|by rewrite lookup_insert_ne].
Qed.

Lemma run_frame_lookup now c k' (d : database) :
  command_key c ≠ k' → (run now c d).1 !! k' = d !! k'.
Proof.
  intros Hk.
  assert (expireIfNeeded now (command_key c) d !! k' = d !! k') as Hx.
  { by rewrite lookup_expireIfNeeded, decide_False. }
  rewrite <- Hx.
  destruct c as [k|k b ex|k|k s m|k ms|k lo hi|k lo hi]; simpl in *.
  - by destruct (expireIfNeeded now k d !! k) as [[[b|z] t]|].
  - by rewrite lookup_insert_ne.
  - by rewrite lookup_delete_ne.
  - destruct (expireIfNeeded now k d !! k) as [[[b|z] t]|]; simpl;
      [done|by rewrite lookup_insert_ne..].
  - destruct (expireIfNeeded now k d !! k) as [[[b|z] t]|]; simpl;
      [done|by rewrite lookup_store_zset_ne|done].
  - by destruct (expireIfNeeded now k d !! k) as [[[b|z] t]|].
  - destruct (expireIfNeeded now k d !! k) as [[[b|z] t]|]; simpl;
      [done|by rewrite lookup_store_zset_ne|done].
Qed.

(** A harmless command leaves a stored, unexpired string as it is. *)
Lemma harmless_run now c k v dl (d : database) :
  harmless k c →
  d !! k = Some (Entry (VString v) dl) →
  expired now (Entry (VString v) dl) = false →
  (run now c d).1 !! k = Some (Entry (VString v) dl).
Proof.
  intros Hc Hd He.
  destruct (decide (command_key c = k)) as [Hk|Hk];
    [|by rewrite run_frame_lookup].
  assert (expireIfNeeded now k d = d) as Hx.
  { unfold expireIfNeeded. by rewrite Hd, He. }
  destruct c as [k'|k' b ex|k'|k' s m|k' ms|k' lo hi|k' lo hi];
    simpl in *; subst k'; try done; by rewrite Hx, Hd.
Qed.

Lemma harmless_batch now q k v dl (d : database) :
  Forall (harmless k) q →
  d !! k = Some (Entry (VString v) dl) →
  expired now (Entry (VString v) dl) = false →
  (run_batch now q d).1 !! k = Some (Entry (VString v) dl).
Proof.
  intros Hq. revert d. induction Hq as [|c q Hc Hq IH]; intros d Hd He.
  - done.
  - rewrite run_batch_cons. apply IH; [|done]. by apply harmless_run.
Qed.

Lemma process_keeps e c cn k v dl :
  harmless k c →
  server cn !! k = Some (Entry (VString v) dl) →
  expired (now e) (Entry (VString v) dl) = false →
  server (process e c cn).1 !! k = Some (Entry (VString v) dl).
Proof.
  intros Hc Hd He. rewrite process_server.
  destruct (link e); [done|]. by apply harmless_run.
Qed.

Lemma roundtrip_keeps e q cn k v dl :
  Forall (harmless k) q →
  server cn !! k = Some (Entry (VString v) dl) →
  expired (now e) (Entry (VString v) dl) = false →
  server (roundtrip e q cn).1 !! k = Some (Entry (VString v) dl).
Proof.
  intros Hc Hd He. rewrite roundtrip_server.
  destruct (link e); [done|]. by apply harmless_batch.
Qed.

Lemma Get_state e id r :
  (Get e id r).1 =
  with_conn (process e (CGet (resultPrefix +:+ id)) (conn r)).1
    (log LDebug "getting result for job" r).
Proof.
  unfold Get. rewrite conn_do_unfold. simpl. by destruct (Bytes _).
Qed.

Lemma GetSuccess_state e r :
  (GetSuccess e r).1 =
  with_conn (process e (CZRevRangeByScore (resultPrefix +:+ success) 0 (now e))
               (conn r)).1
    (log LDebug "getting successful jobs" r).
Proof.
  unfold GetSuccess. rewrite conn_do_unfold. simpl. by destruct (Result _).
Qed.

Lemma GetFailed_state e r :
  (GetFailed e r).1 =
  with_conn (process e (CZRevRangeByScore (resultPrefix +:+ failed) 0 (now e))
               (conn r)).1
    (log LDebug "getting failed jobs" r).
Proof.
  unfold GetFailed. rewrite conn_do_unfold. simpl. by destruct (Result _).
Qed.

Lemma execPipe_tick_opts e r : opts (execPipe_tick e r) = opts r.
Proof.
  unfold execPipe_tick. destruct (decide _); [done|].
  rewrite pipe_Exec_unfold. simpl. destruct (pipe r); simpl; [done|].
  by destruct (roundtrip e _ (conn r)) as [cn [err|]].
Qed.

Lemma expireMeta_tick_opts ttl e r : opts (expireMeta_tick ttl e r) = opts r.
Proof.
  unfold expireMeta_tick. simpl. destruct (decide _); simpl; [done|].
  rewrite conn_do_unfold. simpl.
  destruct (Err (process e _ (conn r)).2); simpl;
    rewrite conn_do_unfold; simpl; by destruct (Err (process e _ _).2).
Qed.

Lemma step_opts ev r : opts (step ev r) = opts r.
Proof.
  destruct ev as [e c]. unfold step. simpl. destruct c as [id b|id|id|id| | |id| |].
  - destruct (decide (PipePeriod (opts r) = 0)) as [Hp|Hp].
    + by rewrite (Set_direct _ _ _ _ Hp).
    + by rewrite (Set_queued _ _ _ _ Hp).
  - by rewrite Get_state.
  - destruct (decide (PipePeriod (opts r) = 0)) as [Hp|Hp].
    + by rewrite (SetSuccess_direct _ _ _ Hp).
    + by rewrite (SetSuccess_queued _ _ _ Hp).
  - destruct (decide (PipePeriod (opts r) = 0)) as [Hp|Hp].
    + by rewrite (SetFailed_direct _ _ _ Hp).
    + by rewrite (SetFailed_queued _ _ _ Hp).
  - by rewrite GetSuccess_state.
  - by rewrite GetFailed_state.
  - by rewrite DeleteJob_unfold.
  - destruct (0 <? _); [apply execPipe_tick_opts|done].
  - destruct (0 <? _); [apply expireMeta_tick_opts|done].
Qed.

Lemma run_calls_opts evs r : opts (run_calls evs r) = opts r.
Proof.
  revert r. induction evs as [|ev evs IH]; intros r; [done|].
  change (run_calls (ev :: evs) r) with (run_calls evs (step ev r)).
  by rewrite IH, step_opts.
Qed.

(** A call that does not write the record of [id] keeps it, if it has
    not expired when the call is made. *)
Lemma step_keeps id v dl ev r :
  ¬ writes_record id ev.2 →
  expired (now ev.1) (Entry (VString v) dl) = false →
  keeps (resultPrefix +:+ id) v dl r →
  keeps (resultPrefix +:+ id) v dl (step ev r).
Proof.
  intros Hw He [Hd Hq]. unfold keeps. rewrite step_opts.
  destruct ev as [e c]. unfold step. simpl in *.
  destruct c as [id' b|id'|id'|id'| | |id'| |].
  - assert (resultPrefix +:+ id' ≠ resultPrefix +:+ id) as Hk
      by (by intros ?%result_key_inj).
    destruct (decide (PipePeriod (opts r) = 0)) as [Hp|Hp].
    + rewrite (Set_direct _ _ _ _ Hp). simpl. split; [|done].
      by apply process_keeps.
    + rewrite (Set_queued _ _ _ _ Hp). simpl. split; [done|].
      intros Hpp. apply Forall_app. split; [auto|]. by repeat constructor.
  - rewrite Get_state. simpl. split; [|done]. by apply process_keeps.
  - destruct (decide (PipePeriod (opts r) = 0)) as [Hp|Hp].
    + rewrite (SetSuccess_direct _ _ _ Hp). simpl. split; [|done].
      by apply process_keeps.
    + rewrite (SetSuccess_queued _ _ _ Hp). simpl. split; [done|].
      intros Hpp. apply Forall_app. split; [auto|]. by repeat constructor.
  - destruct (decide (PipePeriod (opts r) = 0)) as [Hp|Hp].
    + rewrite (SetFailed_direct _ _ _ Hp). simpl. split; [|done].
      by apply process_keeps.
    + rewrite (SetFailed_queued _ _ _ Hp). simpl. split; [done|].
      intros Hpp. apply Forall_app. split; [auto|]. by repeat constructor.
  - rewrite GetSuccess_state. simpl. split; [|done]. by apply process_keeps.
  - rewrite GetFailed_state. simpl. split; [|done]. by apply process_keeps.
  - assert (resultPrefix +:+ id' ≠ resultPrefix +:+ id) as Hk
      by (by intros ?%result_key_inj).
    rewrite DeleteJob_unfold. simpl. split; [|done].
    apply roundtrip_keeps; [|done..]. by repeat constructor.
  - destruct (0 <? PipePeriod (opts r)) eqn:Hpp; [|done].
    apply Z.ltb_lt in Hpp.
    destruct (pipe r) as [|c q] eqn:Hpipe.
    { rewrite (execPipe_tick_empty e r Hpipe). split; [done|].
      rewrite Hpipe. auto. }
    destruct (execPipe_tick_nonempty e r) as (Hc & _ & Hp' & _);
      [by rewrite Hpipe|].
    rewrite Hc, Hp', Hpipe. split; [|done].
    apply roundtrip_keeps; auto.
  - destruct (0 <? MetaExpiry (opts r)) eqn:Hm; [|done].
    destruct (decide (PipePeriod (opts r) = 0)) as [Hp|Hp].
    + destruct (expireMeta_tick_direct (MetaExpiry (opts r)) e r Hp)
        as [Hq' Hc]. simpl in Hc. rewrite Hq', Hc. split; [|done].
      by repeat apply process_keeps.
    + destruct (expireMeta_tick_queued (MetaExpiry (opts r)) e r Hp)
        as (Hq' & Hc & _). simpl in Hq'. rewrite Hq', Hc. split; [done|].
      intros Hpp. apply Forall_app. split; [auto|]. by repeat constructor.
Qed.

Lemma run_calls_keeps id v dl evs r :
  Forall (λ ev, ¬ writes_record id ev.2) evs →
  Forall (λ ev, expired (now ev.1) (Entry (VString v) dl) = false) evs →
  keeps (resultPrefix +:+ id) v dl r →
  keeps (resultPrefix +:+ id) v dl (run_calls evs r).
Proof.
  intros Hw. revert r. induction Hw as [|ev evs Hev Hw IH]; intros r He Hk.
  - done.
  - apply Forall_cons in He as [He1 He].
    change (run_calls (ev :: evs) r) with (run_calls evs (step ev r)).
    apply IH; [done|]. by apply step_keeps.
Qed.

Lemma keeps_Get id v dl e r :
  keeps (resultPrefix +:+ id) v dl r →
  link e = None →
  expired (now e) (Entry (VString v) dl) = false →
  (Get e id r).2 = inr v.
Proof.
  intros [Hd _] Hl He. rewrite Get_result, process_result, Hl, run_CGet.
  unfold live. by rewrite Hd, He.
Qed.

Lemma keeps_unexpired k v dl r t :
  server (conn r) !! k = Some (Entry (VString v) dl) →
  unexpired k r t → expired t (Entry (VString v) dl) = false.
Proof.
  intros Hd [x Hx]. unfold live in Hx. rewrite Hd in Hx.
  by destruct (expired t _).
Qed.

(** What a [SET] leaves under its key. *)
Lemma run_CSet_lookup now k b ex (d : database) :
  ∃ dl, (run now (CSet k b ex) d).1 !! k = Some (Entry (VString b) dl) ∧
        expired now (Entry (VString b) dl) = false.
Proof.
  pose proof (run_CSet_live now k b ex d) as Hl.
  simpl in *. unfold live in Hl. rewrite lookup_insert_eq in Hl.
  rewrite lookup_insert_eq. eexists. split; [done|].
  by destruct (expired now _).
Qed.

(** In batched mode a call other than a tick of the flusher only adds
    to the queue, and what a call that does not write the record adds is
    harmless to it. *)
Lemma step_pending id v ex ev r :
  PipePeriod (opts r) ≠ 0 →
  ¬ writes_record id ev.2 →
  ev.2 ≠ TickFlush →
  pending (resultPrefix +:+ id) v ex r →
  pending (resultPrefix +:+ id) v ex (step ev r).
Proof.
  intros Hp Hw Hf (q1 & q2 & Hq & Hh).
  assert (∀ q', Forall (harmless (resultPrefix +:+ id)) q' →
    ∀ r', pipe r' = pipe r ++ q' → pending (resultPrefix +:+ id) v ex r')
    as Hadd.
  { intros q' Hq' r' Hr'. exists q1, (q2 ++ q'). split.
    - rewrite Hr', Hq. by rewrite <- app_assoc.
    - by apply Forall_app. }
  assert (∀ r', pipe r' = pipe r → pending (resultPrefix +:+ id) v ex r')
    as Hsame.
  { intros r' Hr'. apply (Hadd []); [done|]. by rewrite app_nil_r. }
  destruct ev as [e c]. unfold step. simpl in *.
  destruct c as [id' b|id'|id'|id'| | |id'| |].
  - rewrite (Set_queued _ _ _ _ Hp). eapply Hadd; [|done].
    repeat constructor. simpl. by intros ?%result_key_inj.
  - rewrite Get_state. by apply Hsame.
  - rewrite (SetSuccess_queued _ _ _ Hp). eapply Hadd; [|done].
    by repeat constructor.
  - rewrite (SetFailed_queued _ _ _ Hp). eapply Hadd; [|done].
    by repeat constructor.
  - rewrite GetSuccess_state. by apply Hsame.
  - rewrite GetFailed_state. by apply Hsame.
  - rewrite DeleteJob_unfold. by apply Hsame.
  - done.
  - destruct (0 <? MetaExpiry (opts r)); [|by apply Hsame].
    destruct (expireMeta_tick_queued (MetaExpiry (opts r)) e r Hp)
      as (Hq' & _). simpl in Hq'. eapply Hadd; [|done].
    by repeat constructor.
Qed.

Lemma run_calls_pending id v ex evs r :
  PipePeriod (opts r) ≠ 0 →
  Forall (λ ev, ¬ writes_record id ev.2) evs →
  Forall (λ ev, ev.2 ≠ TickFlush) evs →
  pending (resultPrefix +:+ id) v ex r →
  pending (resultPrefix +:+ id) v ex (run_calls evs r).
Proof.
  intros Hp Hw. revert r Hp.
  induction Hw as [|ev evs Hev Hw IH]; intros r Hp Hf Hq; [done|].
  apply Forall_cons in Hf as [Hf1 Hf].
  change (run_calls (ev :: evs) r) with (run_calls evs (step ev r)).
  apply IH; [by rewrite step_opts|done|]. by apply step_pending.
Qed.

Lemma run_batch_app_fst now q1 q2 (d : database) :
  (run_batch now (q1 ++ q2) d).1 =
  (run_batch now q2 (run_batch now q1 d).1).1.
Proof. by rewrite run_batch_app. Qed.

(** A delivered flush of a queue with a pending write stores it. *)
Lemma flush_pending id v ex e r :
  pending (resultPrefix +:+ id) v ex r →
  link e = None →
  ∃ dl, keeps (resultPrefix +:+ id) v dl (execPipe_tick e r) ∧
        expired (now e) (Entry (VString v) dl) = false.
Proof.
  intros (q1 & q2 & Hq & Hh) Hl.
  destruct (execPipe_tick_nonempty e r) as (Hc & _ & Hp & _);
    [rewrite Hq; by destruct q1|].
  destruct (run_CSet_lookup (now e) (resultPrefix +:+ id) v ex
              (run_batch (now e) q1 (server (conn r))).1) as (dl & Hd & He).
  exists dl. split; [|done]. split; [|by rewrite Hp].
  rewrite Hc, roundtrip_server, Hl, Hq, run_batch_app_fst, run_batch_cons.
  by apply harmless_batch.
Qed.

(** ** Set, then Get *)

Lemma Forall_times (P : Z → Prop) (eg : env) (post : list (env * call)) :
  Forall P (now eg :: ((λ ev, now ev.1) <$> post)) →
  P (now eg) ∧ Forall (λ ev, P (now ev.1)) post.
Proof.
  intros [Hg Hp]%Forall_cons. split; [done|].
  rewrite Forall_fmap in Hp. exact Hp.
Qed.

Lemma keeps_run_then_Get id v dl post eg r :
  keeps (resultPrefix +:+ id) v dl r →
  Forall (λ ev, ¬ writes_record id ev.2) post →
  Forall (unexpired (resultPrefix +:+ id) r)
    (now eg :: ((λ ev, now ev.1) <$> post)) →
  link eg = None →
  (Get eg id (run_calls post r)).2 = inr v.
Proof.
  intros Hk Hw [Hg Hp]%Forall_times Hl.
  apply (keeps_Get id v dl); [|done|].
  - apply run_calls_keeps; [done| |done].
    eapply Forall_impl; [exact Hp|]. intros ev.
    apply keeps_unexpired, Hk.
  - eapply keeps_unexpired; [apply Hk|done].
Qed.

(** C3. [Set(id, v)] followed by [Get(id)] gives [v] back, whatever
    other calls and ticks come between, as long as none of them is a
    [Set] or a [DeleteJob] for [id], the record has not expired at the
    time of any of them nor of the [Get], and the [Get] is answered.
    Without batching the write must have returned no error; with
    batching it is applied by the first tick of the flusher after it,
    delivered over a healthy link. *)
Theorem Set_then_Get_returns_payload
    (e0 ef eg : env) (id : string) (v : bytes) (r : Results)
    (mid post : list (env * call)) :
  Forall (λ ev, ¬ writes_record id ev.2) (mid ++ post) →
  link eg = None →
  (PipePeriod (opts r) = 0 →
   (Set_ e0 id v r).2 = None →
   let r1 := (Set_ e0 id v r).1 in
   Forall (unexpired (resultPrefix +:+ id) r1)
     (now eg :: ((λ ev, now ev.1) <$> post)) →
   (Get eg id (run_calls post r1)).2 = inr v) ∧
  (PipePeriod (opts r) ≠ 0 →
   Forall (λ ev, ev.2 ≠ TickFlush) mid →
   link ef = None →
   let r2 := execPipe_tick ef (run_calls mid (Set_ e0 id v r).1) in
   Forall (unexpired (resultPrefix +:+ id) r2)
     (now eg :: ((λ ev, now ev.1) <$> post)) →
   (Get eg id (run_calls post r2)).2 = inr v).
Proof.
  intros [Hmid Hpost]%Forall_app Hg. split.
  - intros Hp Herr r1 Hun.
    assert (∃ dl, keeps (resultPrefix +:+ id) v dl r1) as [dl Hk].
    { unfold r1. rewrite (Set_direct _ _ _ _ Hp) in *. simpl in *.
      rewrite process_result in Herr. unfold keeps. simpl.
      rewrite process_server.
      destruct (link e0); [done|].
      destruct (run_CSet_lookup (now e0) (resultPrefix +:+ id) v
                  (Expiry (opts r)) (server (conn r))) as (dl & Hd & _).
      exists dl. split; [done|]. intros ?. lia. }
    by eapply keeps_run_then_Get.
  - intros Hp Hnf Hf r2 Hun.
    assert (pending (resultPrefix +:+ id) v (Expiry (opts r))
              (run_calls mid (Set_ e0 id v r).1)) as Hpend.
    { apply run_calls_pending; [|done..|].
      - by rewrite (Set_queued _ _ _ _ Hp).
      - rewrite (Set_queued _ _ _ _ Hp). by exists (pipe r), []. }
    destruct (flush_pending _ _ _ ef _ Hpend Hf) as (dl & Hk & _).
    by eapply keeps_run_then_Get.
Qed.

(** A witness, batched: the payload is queued; a failed job is recorded
    and another job deleted; the flusher ticks; the purger and another
    [Set] follow; [Get] returns the payload. *)
Lemma Set_then_Get_returns_payload_witness :
  let o := {| Addrs := []; Password := ""; DB := 0; DialTimeout := 0;
              ReadTimeout := 0; WriteTimeout := 0; IdleTimeout := 0;
              Expiry := 5000000; MetaExpiry := 100; MinIdleConns := 0;
              PipePeriod := 200 |} in
  let r := (New o [] ∅).1 in
  let mid := [(Env 11 None, CallSetFailed "job-2");
              (Env 12 None, CallDeleteJob "job-2")] in
  let post := [(Env 21 None, TickPurge);
               (Env 22 None, CallSet "job-3" [Byte.x00])] in
  let r2 := execPipe_tick (Env 20 None)
              (run_calls mid (Set_ (Env 10 None) "job-1" [Byte.x6f; Byte.x6b] r).1) in
  (Get (Env 15 None) "job-1"
     (run_calls mid (Set_ (Env 10 None) "job-1" [Byte.x6f; Byte.x6b] r).1)).2
    = inl NilError ∧
  (Get (Env 30 None) "job-1" (run_calls post r2)).2 = inr [Byte.x6f; Byte.x6b].
Proof.
  intros o r mid post r2. split; [reflexivity|].
  refine (proj2 (Set_then_Get_returns_payload (Env 10 None) (Env 20 None)
                   (Env 30 None) "job-1" [Byte.x6f; Byte.x6b] r mid post
                   _ eq_refl) _ _ eq_refl _).
  - repeat constructor; simpl; try tauto; discriminate.
  - vm_compute. discriminate.
  - repeat constructor; discriminate.
  - repeat constructor; vm_compute; eauto.
Defined.

(** ** Deleting a job *)

Lemma run_CDel_live now t k (d : database) :
  live t k (run now (CDel k) d).1 = None.
Proof. unfold live. simpl. by rewrite lookup_delete_eq. Qed.

(** X1.  After a [DeleteJob] whose round trip is delivered, [Get] of the
    same job answers with the not-found error, whatever the store held
    before and whatever [DeleteJob] itself returned. *)
Theorem DeleteJob_then_Get_not_found (e eg : env) (id : string) (r : Results) :
  link e = None → link eg = None →
  (Get eg id (DeleteJob e id r).1).2 = inl NilError.
Proof.
  intros Hl Hg. rewrite Get_result, process_result, Hg, run_CGet.
  rewrite DeleteJob_unfold. cbn [fst conn with_conn].
  rewrite roundtrip_server, Hl. unfold delete_batch.
  rewrite !run_batch_cons. cbn [run_batch fst].
  by rewrite run_CDel_live.
Qed.

Lemma DeleteJob_then_Get_not_found_witness :
  let r0 := (New DefaultRedis [] ∅).1 in
  let r1 := (Set_ (Env 10 None) "job-1" [Byte.x6f] r0).1 in
  (Get (Env 15 None) "job-1" r1).2 = inr [Byte.x6f] ∧
  (Get (Env 30 None) "job-1" (DeleteJob (Env 20 None) "job-1" r1).1).2
    = inl NilError.
Proof.
  intros r0 r1. split; [reflexivity|].
  apply (DeleteJob_then_Get_not_found (Env 20 None) (Env 30 None) "job-1" r1);
    reflexivity.
Defined.

(** X2.  What a delivered [DeleteJob] does to an index, for a job named
    neither "success" nor "failed": the entries of that job and of the
    member "1" are taken out, and the others stay as they were, in their
    order.  The member "1" goes because the removal names it beside the
    job. *)
Theorem DeleteJob_removes_job_and_member_1
    (e : env) (id : string) (r : Results) (k : string) :
  id ≠ success → id ≠ failed → link e = None →
  k = resultPrefix +:+ success ∨ k = resultPrefix +:+ failed →
  let before := index (now e) k (server (conn r)) in
  let after := index (now e) k (server (conn (DeleteJob e id r).1)) in
  after = filter (λ p, p.1 ≠ "1" ∧ p.1 ≠ id) before ∧
  (∀ s, ("1", s) ∉ after) ∧
  (DeleteJob e id r).2 = (run_batch (now e) (delete_batch id) (server (conn r))).2.
Proof.
  intros Hs Hf Hl Hk before after.
  assert (after = filter (λ p, p.1 ≠ "1" ∧ p.1 ≠ id) before) as Ha.
  { unfold after, before. rewrite (DeleteJob_index _ _ _ _ Hs Hf Hl Hk).
    unfold zset_rem. apply list_filter_iff. intros p.
    rewrite !not_elem_of_cons. split; [intros (? & ? & _); done|].
    intros [? ?]. repeat split; [done..|apply not_elem_of_nil]. }
  split; [exact Ha|]. split.
  - intros s. rewrite Ha. intros [[Hn _] _]%list_elem_of_filter. by apply Hn.
  - rewrite DeleteJob_unfold. cbn [snd]. by rewrite roundtrip_error, Hl.
Qed.

Lemma DeleteJob_removes_job_and_member_1_witness :
  let r0 := (New DefaultRedis [] ∅).1 in
  let r1 := (SetSuccess (Env 10 None) "1" r0).1 in
  let r2 := (SetSuccess (Env 20 None) "job-2" r1).1 in
  let r3 := (SetSuccess (Env 30 None) "job-3" r2).1 in
  let k := resultPrefix +:+ success in
  index 40 k (server (conn r3)) = [("job-3", 30); ("job-2", 20); ("1", 10)] ∧
  index 40 k (server (conn (DeleteJob (Env 40 None) "job-2" r3).1))
    = [("job-3", 30)].
Proof.
  intros r0 r1 r2 r3 k. split; [reflexivity|].
  pose proof (DeleteJob_removes_job_and_member_1 (Env 40 None) "job-2" r3 k)
    as [H _]; [discriminate|discriminate|reflexivity|by left|].
  etrans; [exact H|reflexivity].
Defined.

(** ** Recording an outcome *)

Lemma run_CZAdd_lookup now k s m (d : database) re :
  (run now (CZAdd k s m) d).2 = inr re →
  ∃ z t, (run now (CZAdd k s m) d).1 !! k = Some (Entry (VZSet z) t) ∧
         (m, s) ∈ z.
Proof.
  simpl. destruct (expireIfNeeded now k d !! k) as [[[b|z] t]|]; simpl.
  - discriminate.
  - intros _. exists (zset_add m s z), t. rewrite lookup_insert_eq.
    split; [done|]. unfold zset_add. left.
  - intros _. exists [(m, s)], None. rewrite lookup_insert_eq.
    split; [done|]. left.
Qed.

Lemma unexpired_lookup k en r t :
  server (conn r) !! k = Some en → unexpired k r t → expired t en = false.
Proof.
  intros Hd [x Hx]. unfold live in Hx. rewrite Hd in Hx.
  by destruct (expired t en).
Qed.

Lemma range_query_lists e k cn z t m s :
  link e = None →
  server cn !! k = Some (Entry (VZSet z) t) →
  expired (now e) (Entry (VZSet z) t) = false →
  (m, s) ∈ z → 0 ≤ s ≤ float64 (now e) →
  ∃ ids, Result (process e (CZRevRangeByScore k 0 (now e)) cn).2 = inr ids ∧
         m ∈ ids.
Proof.
  intros Hl Hd He Hin Hs.
  assert (live (now e) k (server cn) = Some (VZSet z)) as Hlive.
  { unfold live. by rewrite Hd, He. }
  destruct (range_query_spec e k cn Hl) as (l & Hr & Hp & _).
  { intros b. by rewrite Hlive. }
  exists l.*1. split; [done|].
  apply (list_elem_of_fmap_2 fst l (m, s)). rewrite Hp.
  apply list_elem_of_filter. split; [done|].
  unfold index. by rewrite Hlive.
Qed.

Lemma recorded_then_listed e1 e2 k id r :
  link e2 = None → 0 ≤ now e1 ≤ now e2 →
  let c := CZAdd k (float64 (now e1)) id in
  Err (process e1 c (conn r)).2 = None →
  is_Some (live (now e2) k (server (process e1 c (conn r)).1)) →
  ∃ ids, Result (process e2 (CZRevRangeByScore k 0 (now e2))
                   (process e1 c (conn r)).1).2 = inr ids ∧ id ∈ ids.
Proof.
  intros Hl2 Ht c Hok Hlive.
  rewrite process_result in Hok. destruct (link e1) eqn:Hl1; [done|].
  destruct (run (now e1) c (server (conn r))).2 as [err|re] eqn:Hr; [done|].
  destruct (run_CZAdd_lookup _ _ _ _ _ _ Hr) as (z & t & Hd & Hin).
  assert (server (process e1 c (conn r)).1 !! k = Some (Entry (VZSet z) t))
    as Hsrv by (by rewrite process_server, Hl1).
  apply (range_query_lists e2 k _ z t id (float64 (now e1))); try done.
  - destruct Hlive as [x Hx]. unfold live in Hx. rewrite Hsrv in Hx.
    by destruct (expired _ _).
  - split; [|apply float64_mono; lia].
    rewrite <- float64_0. apply float64_mono. lia.
Qed.

(** X3.  A job recorded directly is listed from then on: when
    [SetSuccess] reports no error, a later [GetSuccess] that reaches the
    store returns a list with the job in it, as long as the index key is
    still there; [SetFailed] and [GetFailed] likewise.  The clock is
    taken not to run backwards and not to be negative. *)
Theorem recorded_job_is_listed (e1 e2 : env) (id : string) (r : Results) :
  PipePeriod (opts r) = 0 → link e2 = None → 0 ≤ now e1 ≤ now e2 →
  ((SetSuccess e1 id r).2 = None →
   unexpired (resultPrefix +:+ success) (SetSuccess e1 id r).1 (now e2) →
   ∃ ids, (GetSuccess e2 (SetSuccess e1 id r).1).2 = inr ids ∧ id ∈ ids) ∧
  ((SetFailed e1 id r).2 = None →
   unexpired (resultPrefix +:+ failed) (SetFailed e1 id r).1 (now e2) →
   ∃ ids, (GetFailed e2 (SetFailed e1 id r).1).2 = inr ids ∧ id ∈ ids).
Proof.
  intros Hp Hl2 Ht. split.
  - rewrite GetSuccess_result, (SetSuccess_direct _ _ _ Hp).
    cbn [fst snd conn with_conn]. unfold unexpired. cbn [conn with_conn].
    by apply recorded_then_listed.
  - rewrite GetFailed_result, (SetFailed_direct _ _ _ Hp).
    cbn [fst snd conn with_conn]. unfold unexpired. cbn [conn with_conn].
    by apply recorded_then_listed.
Qed.

Lemma recorded_job_is_listed_witness :
  let r0 := (New DefaultRedis [] ∅).1 in
  let r1 := (SetFailed (Env 10 None) "job-1" r0).1 in
  ∃ ids, (GetFailed (Env 20 None) (SetFailed (Env 15 None) "job-2" r1).1).2
           = inr ids ∧ "job-2" ∈ ids.
Proof.
  intros r0 r1.
  apply (proj2 (recorded_job_is_listed (Env 15 None) (Env 20 None) "job-2" r1
                  eq_refl eq_refl ltac:(simpl; lia))).
  - reflexivity.
  - vm_compute. eauto.
Defined.

Lemma index_lookup_eq t k (d d' : database) :
  d' !! k = d !! k → index t k d' = index t k d.
Proof. intros H. unfold index, live. by rewrite H. Qed.

Lemma process_CZAdd_frame e k s id cn :
  (∀ k' t, k' ≠ k →
     index t k' (server (process e (CZAdd k s id) cn).1) = index t k' (server cn)) ∧
  (∀ m, m ≠ id →
     filter (λ p, p.1 = m) (index (now e) k (server (process e (CZAdd k s id) cn).1))
     = filter (λ p, p.1 = m) (index (now e) k (server cn))).
Proof.
  rewrite process_server. destruct (link e); [done|]. split.
  - intros k' t Hk. apply index_lookup_eq. by apply run_frame_lookup.
  - intros m Hm.
    destruct (live (now e) k (server cn)) as [[b|z]|] eqn:Hlive.
    + rewrite (run_CZAdd_refused _ _ _ _ _ _ Hlive). cbn [fst].
      unfold index. by rewrite live_expireIfNeeded.
    + destruct (run_CZAdd (now e) k s id (server cn)) as [_ ->];
        [by rewrite Hlive|]. by apply zset_add_other.
    + destruct (run_CZAdd (now e) k s id (server cn)) as [_ ->];
        [by rewrite Hlive|]. by apply zset_add_other.
Qed.

(** X4.  Recording an outcome touches one entry of one index.
    [SetSuccess] leaves the failed index as it was and [SetFailed] the
    success index, so nothing moves a job from one list to the other;
    and in the index it writes to, the entries of every other job stay
    as they were.  This holds with and without batching and whether or
    not the call succeeds. *)
Theorem recording_touches_one_entry (e : env) (id : string) (r : Results) :
  let ks := resultPrefix +:+ success in
  let kf := resultPrefix +:+ failed in
  (∀ t, index t kf (server (conn (SetSuccess e id r).1)) = index t kf (server (conn r))) ∧
  (∀ t, index t ks (server (conn (SetFailed e id r).1)) = index t ks (server (conn r))) ∧
  (∀ m, m ≠ id →
     filter (λ p, p.1 = m) (index (now e) ks (server (conn (SetSuccess e id r).1)))
     = filter (λ p, p.1 = m) (index (now e) ks (server (conn r))) ∧
     filter (λ p, p.1 = m) (index (now e) kf (server (conn (SetFailed e id r).1)))
     = filter (λ p, p.1 = m) (index (now e) kf (server (conn r)))).
Proof.
  intros ks kf. pose proof index_keys_differ as Hne. fold ks kf in Hne.
  destruct (decide (PipePeriod (opts r) = 0)) as [Hp|Hp].
  - rewrite (SetSuccess_direct _ _ _ Hp), (SetFailed_direct _ _ _ Hp).
    cbn [fst conn with_conn]. fold ks kf.
    destruct (process_CZAdd_frame e ks (float64 (now e)) id (conn r)) as [Hs1 Hs2].
    destruct (process_CZAdd_frame e kf (float64 (now e)) id (conn r)) as [Hf1 Hf2].
    repeat split; auto.
  - by rewrite (SetSuccess_queued _ _ _ Hp), (SetFailed_queued _ _ _ Hp).
Qed.

(** ** The lifetime of a result record *)

Lemma run_CSet_at now k b ex (d : database) :
  (run now (CSet k b ex) d).1 !! k =
  Some (Entry (VString b) (set_expire now ex (expireIfNeeded now k d !! k))).
Proof. simpl. by rewrite lookup_insert_eq. Qed.



(** ** Batching *)

(** X6.  With batching on, [Set], [SetSuccess] and [SetFailed] only queue:
    they return no error whatever the state of the link, nothing is sent
    and the store is as before, so a read made before the next flush
    answers as if the write had not been made. *)
Theorem batched_writes_are_deferred
    (e eg : env) (id : string) (v : bytes) (r : Results) :
  PipePeriod (opts r) ≠ 0 →
  ((Set_ e id v r).2 = None ∧ conn (Set_ e id v r).1 = conn r ∧
   ∀ id', (Get eg id' (Set_ e id v r).1).2 = (Get eg id' r).2) ∧
  ((SetSuccess e id r).2 = None ∧ conn (SetSuccess e id r).1 = conn r ∧
   (GetSuccess eg (SetSuccess e id r).1).2 = (GetSuccess eg r).2) ∧
  ((SetFailed e id r).2 = None ∧ conn (SetFailed e id r).1 = conn r ∧
   (GetFailed eg (SetFailed e id r).1).2 = (GetFailed eg r).2).
Proof.
  intros Hp.
  rewrite (Set_queued _ _ _ _ Hp), (SetSuccess_queued _ _ _ Hp),
    (SetFailed_queued _ _ _ Hp). cbn [fst snd].
  repeat split; try done.
  - intros id'. by rewrite !Get_result.
  - by rewrite !GetSuccess_result.
  - by rewrite !GetFailed_result.
Qed.

Lemma batched_writes_are_deferred_witness :
  let o := {| Addrs := []; Password := ""; DB := 0; DialTimeout := 0;
              ReadTimeout := 0; WriteTimeout := 0; IdleTimeout := 0;
              Expiry := 0; MetaExpiry := 0; MinIdleConns := 0;
              PipePeriod := 200 |} in
  let r := (New o [] ∅).1 in
  (Set_ (Env 10 (Some "down")) "job-1" [Byte.x6f] r).2 = None ∧
  (Get (Env 20 None) "job-1" (Set_ (Env 10 (Some "down")) "job-1" [Byte.x6f] r).1).2
    = inl NilError.
Proof.
  intros o r.
  pose proof (batched_writes_are_deferred (Env 10 (Some "down")) (Env 20 None)
                "job-1" [Byte.x6f] r ltac:(by vm_compute))
    as [(H1 & _ & H2) _].
  split; [exact H1|]. etrans; [apply H2|reflexivity].
Defined.

(** X7.  A flush that fails loses what was queued.  With batching on, a
    [Set] returns no error; if the next tick of the flusher finds the
    link down, the store is left as it was before the [Set], the queue
    is empty, and every later tick finds nothing to send. *)
Theorem failed_flush_loses_writes
    (e ef : env) (m : string) (id : string) (v : bytes) (r : Results) :
  PipePeriod (opts r) ≠ 0 → link ef = Some m →
  let r2 := execPipe_tick ef (Set_ e id v r).1 in
  (Set_ e id v r).2 = None ∧
  server (conn r2) = server (conn r) ∧
  pipe r2 = [] ∧
  ∀ ef', execPipe_tick ef' r2 = r2.
Proof.
  intros Hp Hl r2. unfold r2. rewrite (Set_queued _ _ _ _ Hp). cbn [fst snd].
  set (r1 := with_pipe _ _).
  assert (pipe r1 ≠ []) as Hq.
  { unfold r1. simpl. intros H. by apply app_eq_nil in H as [_ ?]. }
  destruct (execPipe_tick_nonempty ef r1 Hq) as (Hc & _ & Hp' & _).
  split; [done|]. split; [|split; [done|]].
  - by rewrite Hc, roundtrip_server, Hl.
  - intros ef'. by apply execPipe_tick_empty.
Qed.

Lemma failed_flush_loses_writes_witness :
  let o := {| Addrs := []; Password := ""; DB := 0; DialTimeout := 0;
              ReadTimeout := 0; WriteTimeout := 0; IdleTimeout := 0;
              Expiry := 0; MetaExpiry := 0; MinIdleConns := 0;
              PipePeriod := 200 |} in
  let r := (New o [] ∅).1 in
  let r2 := execPipe_tick (Env 20 (Some "down"))
              (Set_ (Env 10 None) "job-1" [Byte.x6f] r).1 in
  server (conn r2) = server (conn r) ∧
  (Get (Env 40 None) "job-1" (execPipe_tick (Env 30 None) r2)).2 = inl NilError.
Proof.
  intros o r r2.
  pose proof (failed_flush_loses_writes (Env 10 None) (Env 20 (Some "down"))
                "down" "job-1" [Byte.x6f] r ltac:(by vm_compute) eq_refl)
    as (_ & H1 & _ & H2).
  split; [exact H1|]. fold r2 in H2. rewrite (H2 (Env 30 None)). reflexivity.
Defined.

(** X8.  [DeleteJob] does not reach the queue.  With batching on, a
    [Set] that is still queued when the job is deleted is applied by the
    next flush, and [Get] then returns the payload of the deleted job. *)
Theorem DeleteJob_leaves_queued_Set
    (e0 ed ef eg : env) (id : string) (v : bytes) (r : Results) :
  PipePeriod (opts r) ≠ 0 → link ef = None → link eg = None →
  let r1 := (Set_ e0 id v r).1 in
  let r2 := (DeleteJob ed id r1).1 in
  let r3 := execPipe_tick ef r2 in
  unexpired (resultPrefix +:+ id) r3 (now eg) →
  pipe r2 = pipe r1 ∧ (Get eg id r3).2 = inr v.
Proof.
  intros Hp Hlf Hlg r1 r2 r3 Hu.
  assert (pipe r2 = pipe r1) as Hq by (unfold r2; by rewrite DeleteJob_unfold).
  split; [done|].
  assert (pending (resultPrefix +:+ id) v (Expiry (opts r)) r2) as Hpend.
  { exists (pipe r), []. split; [|constructor]. rewrite Hq. unfold r1.
    by rewrite (Set_queued _ _ _ _ Hp). }
  destruct (flush_pending _ _ _ ef r2 Hpend Hlf) as (dl & Hk & _).
  fold r3 in Hk. apply (keeps_Get _ _ dl); [done..|].
  destruct Hk as [Hd _].
  by apply (keeps_unexpired (resultPrefix +:+ id) v dl r3).
Qed.

Lemma DeleteJob_leaves_queued_Set_witness :
  let o := {| Addrs := []; Password := ""; DB := 0; DialTimeout := 0;
              ReadTimeout := 0; WriteTimeout := 0; IdleTimeout := 0;
              Expiry := 0; MetaExpiry := 0; MinIdleConns := 0;
              PipePeriod := 200 |} in
  let r1 := (Set_ (Env 10 None) "job-1" [Byte.x6f] (New o [] ∅).1).1 in
  let r2 := (DeleteJob (Env 20 None) "job-1" r1).1 in
  (Get (Env 40 None) "job-1" (execPipe_tick (Env 30 None) r2)).2
    = inr [Byte.x6f].
Proof.
  intros o r1 r2.
  apply (DeleteJob_leaves_queued_Set (Env 10 None) (Env 20 None) (Env 30 None)
           (Env 40 None) "job-1" [Byte.x6f] (New o [] ∅).1);
    [by vm_compute|reflexivity|reflexivity|vm_compute; eauto].
Defined.

(** ** Starting the loops *)

Lemma New_state o lg d : (New o lg d).1 = MkResults o lg (MkConn d []) [].
Proof. unfold New. by destruct (decide (PipePeriod o ≠ 0)). Qed.

Lemma New_execPipe o lg d : GoExecPipe ∈ (New o lg d).2 ↔ PipePeriod o ≠ 0.
Proof.
  unfold New. destruct (decide (MetaExpiry o ≠ 0));
    destruct (decide (PipePeriod o ≠ 0)) as [Hp|Hp]; simpl;
    rewrite ?elem_of_cons, ?elem_of_nil; split; try done.
  - intros _. right. by left.
  - intros [[=]|[]].
  - intros _. by left.
Qed.

(** X9.  [New] sends nothing and starts with an empty queue.  It starts
    the flusher exactly when [PipePeriod] is not zero; it does not ask
    for a positive one.  For a negative [PipePeriod] the flusher is
    started all the same, cannot make its ticker and panics before it
    handles any signal, and so does the purger for a negative
    [MetaExpiry]; for positive periods neither panics. *)
Theorem loops_need_positive_periods
    (o : Options) (lg : list logrec) (d : database)
    (sigs : list signal) (ticks : list env) :
  let r := (New o lg d).1 in
  let gs := (New o lg d).2 in
  (opts r = o ∧ lo r = lg ∧ pipe r = [] ∧ conn r = MkConn d []) ∧
  (GoExecPipe ∈ gs ↔ PipePeriod o ≠ 0) ∧
  (PipePeriod o < 0 →
   GoExecPipe ∈ gs ∧ execPipe sigs r = (r, Panicked, sigs)) ∧
  (0 < PipePeriod o → (execPipe sigs r).1.2 ≠ Panicked) ∧
  (MetaExpiry o < 0 →
   GoExpireMeta (MetaExpiry o) ∈ gs ∧
   expireMeta (MetaExpiry o) ticks r
   = (log LInfo "starting results meta purger" r, Panicked)) ∧
  (0 < MetaExpiry o → (expireMeta (MetaExpiry o) ticks r).2 = Blocked).
Proof.
  intros r gs. unfold r, gs. rewrite New_state. cbn [opts lo pipe conn].
  split; [done|]. split; [apply New_execPipe|]. repeat split.
  - apply New_execPipe. lia.
  - unfold execPipe, NewTicker. cbn [opts].
    by destruct (Z.ltb_spec 0 (PipePeriod o)); [lia|].
  - unfold execPipe, NewTicker. cbn [opts].
    destruct (Z.ltb_spec 0 (PipePeriod o)); [|lia].
    clear. set (r0 := MkResults _ _ _ _). generalize r0. clear.
    induction sigs as [|[e|e] sigs IH]; intros r0; simpl; try done. apply IH.
  - unfold New. destruct (decide (MetaExpiry o ≠ 0)) as [_|Hm]; [|lia].
    destruct (decide (PipePeriod o ≠ 0)); simpl; by left.
  - unfold expireMeta, NewTicker.
    by destruct (Z.ltb_spec 0 (MetaExpiry o)); [lia|].
  - unfold expireMeta, NewTicker.
    by destruct (Z.ltb_spec 0 (MetaExpiry o)); [|lia].
Qed.

(** ** The purger under batching *)

(** X10.  With batching on, a tick of the purger removes nothing by
    itself: its two removals wait in the queue.  The flush that sends
    them, on a queue that held nothing else, takes out of each index the
    entries with a score from 0 up to the cutoff the purger computed,
    and leaves the others. *)
Theorem expireMeta_batched_purges_at_flush
    (ttl : Z) (e ef : env) (r : Results) (k : string) :
  PipePeriod (opts r) ≠ 0 → pipe r = [] → link ef = None →
  k = resultPrefix +:+ success ∨ k = resultPrefix +:+ failed →
  let cutoff := wrap64 (now e - ttl) in
  let r1 := expireMeta_tick ttl e r in
  let r2 := execPipe_tick ef r1 in
  conn r1 = conn r ∧
  pipe r2 = [] ∧
  index (now ef) k (server (conn r2)) =
    zset_rem_range 0 (float64 cutoff) (index (now ef) k (server (conn r))).
Proof.
  intros Hp Hq Hl Hk cutoff r1 r2.
  destruct (expireMeta_tick_queued ttl e r Hp) as (Hq1 & Hc & _).
  simpl in Hq1. fold r1 cutoff in Hq1, Hc. rewrite Hq in Hq1. simpl in Hq1.
  assert (pipe r1 ≠ []) as Hne by (by rewrite Hq1).
  split; [done|]. split.
  { by destruct (execPipe_tick_nonempty ef r1 Hne) as (_ & _ & ? & _). }
  unfold r2. rewrite (execPipe_tick_server _ _ Hne Hl), Hq1, Hc.
  rewrite !run_batch_cons. cbn [run_batch fst].
  rewrite <- float64_0 at 1.
  destruct Hk as [-> | ->].
  - rewrite run_CZRemRangeByScore_index.
    by rewrite run_frame_index by (simpl; by intros ?%result_key_inj).
  - rewrite run_frame_index by (simpl; by intros ?%result_key_inj).
    by rewrite run_CZRemRangeByScore_index.
Qed.

Lemma expireMeta_batched_purges_at_flush_witness :
  let o := {| Addrs := []; Password := ""; DB := 0; DialTimeout := 0;
              ReadTimeout := 0; WriteTimeout := 0; IdleTimeout := 0;
              Expiry := 0; MetaExpiry := 30; MinIdleConns := 0;
              PipePeriod := 200 |} in
  let r0 := (New o [] ∅).1 in
  let r1 := (SetFailed (Env 50 None) "new" (SetFailed (Env 10 None) "old" r0).1).1 in
  let r2 := execPipe_tick (Env 60 None) r1 in
  let r3 := expireMeta_tick 30 (Env 70 None) r2 in
  let k := resultPrefix +:+ failed in
  index 70 k (server (conn r3)) = [("new", 50); ("old", 10)] ∧
  index 80 k (server (conn (execPipe_tick (Env 80 None) r3))) = [("new", 50)].
Proof.
  intros o r0 r1 r2 r3 k. split; [reflexivity|].
  pose proof (expireMeta_batched_purges_at_flush 30 (Env 70 None) (Env 80 None)
                r2 k ltac:(by vm_compute) eq_refl eq_refl ltac:(by right))
    as (_ & _ & H).
  etrans; [exact H|reflexivity].
Defined.

(** ** Reads *)

Lemma live_expireIfNeeded_later now t k k' (d : database) :
  now ≤ t → live t k' (expireIfNeeded now k d) = live t k' d.
Proof.
  intros Ht. unfold live. rewrite lookup_expireIfNeeded.
  destruct (decide (k = k')) as [->|]; [|done].
  destruct (d !! k') as [en|]; [|done].
  destruct (expired now en) eqn:He; [|done].
  unfold expired in *. destruct (e_expire en) as [dl|]; [|done].
  apply Z.ltb_lt in He. by destruct (Z.ltb_spec dl t); [|lia].
Qed.

Lemma process_read_live e c cn k t :
  (run (now e) c (server cn)).1 = expireIfNeeded (now e) (command_key c) (server cn) →
  now e ≤ t →
  live t k (server (process e c cn).1) = live t k (server cn).
Proof.
  intros Hc Ht. rewrite process_server. destruct (link e); [done|].
  rewrite Hc. by apply live_expireIfNeeded_later.
Qed.

Lemma run_CGet_server now k (d : database) :
  (run now (CGet k) d).1 = expireIfNeeded now k d.
Proof. simpl. by destruct (_ !! k) as [[[?|?] ?]|]. Qed.

Lemma run_CZRevRangeByScore_server now k lo hi (d : database) :
  (run now (CZRevRangeByScore k lo hi) d).1 = expireIfNeeded now k d.
Proof. simpl. by destruct (_ !! k) as [[[?|?] ?]|]. Qed.

(** X11.  [Get], [GetSuccess] and [GetFailed] change nothing that can be
    seen afterwards: under every key, a command at the time of the read
    or later finds what it would have found without the read, and the
    queue and the options are untouched.  (A read may drop a key that has
    already expired; no later command would have found it.) *)
Theorem reads_change_nothing
    (e : env) (id : string) (r : Results) (k : string) (t : Z) :
  now e ≤ t →
  (live t k (server (conn (Get e id r).1)) = live t k (server (conn r)) ∧
   pipe (Get e id r).1 = pipe r ∧ opts (Get e id r).1 = opts r) ∧
  (live t k (server (conn (GetSuccess e r).1)) = live t k (server (conn r)) ∧
   pipe (GetSuccess e r).1 = pipe r ∧ opts (GetSuccess e r).1 = opts r) ∧
  (live t k (server (conn (GetFailed e r).1)) = live t k (server (conn r)) ∧
   pipe (GetFailed e r).1 = pipe r ∧ opts (GetFailed e r).1 = opts r).
Proof.
  intros Ht. rewrite Get_state, GetSuccess_state, GetFailed_state.
  cbn [conn pipe opts with_conn log].
  repeat split; apply process_read_live; try done.
  - apply run_CGet_server.
  - apply run_CZRevRangeByScore_server.
  - apply run_CZRevRangeByScore_server.
Qed.

Lemma reads_change_nothing_witness :
  let r0 := (New DefaultRedis [] ∅).1 in
  let r1 := (Set_ (Env 10 None) "job-1" [Byte.x6f] r0).1 in
  live 30 (resultPrefix +:+ "job-1") (server (conn (Get (Env 20 None) "job-2" r1).1))
    = Some (VString [Byte.x6f]).
Proof.
  intros r0 r1.
  pose proof (reads_change_nothing (Env 20 None) "job-2" r1
                (resultPrefix +:+ "job-1") 30 ltac:(simpl; lia)) as [[H _] _].
  etrans; [exact H|reflexivity].
Defined.

(** ** Scores *)

Lemma round_even_error e a :
  1 ≤ e → 0 ≤ a → Z.abs (round_even a e - a) ≤ 2 ^ (e - 1).
Proof.
  intros He Ha. unfold round_even.
  assert (2 ^ e = 2 * 2 ^ (e - 1)) as H2.
  { replace e with (Z.succ (e - 1)) at 1 by lia. apply Z.pow_succ_r. lia. }
  assert (0 < 2 ^ (e - 1)) as Hh by (apply Z.pow_pos_nonneg; lia).
  pose proof (Z.div_mod a (2 ^ e) ltac:(lia)) as Hd.
  pose proof (Z.mod_pos_bound a (2 ^ e) ltac:(lia)) as Hr.
  set (q := a / 2 ^ e) in *. set (m := a mod 2 ^ e) in *.
  set (h := 2 ^ (e - 1)) in *. rewrite H2 in *. clearbody q m h.
  apply Z.abs_le.
  destruct (Z.ltb_spec m h); [lia|].
  destruct (Z.ltb_spec h m); [lia|].
  destruct (Z.even q); lia.
Qed.

(** X12.  The score recorded for a job is the nanosecond timestamp
    converted by [float64].  For a timestamp of the 63-bit range the
    score is within 512 ns of it and is the timestamp itself below
    [2^53]; and the conversion keeps the order of time: a later
    timestamp never gets a lower score. *)
Theorem score_close_to_timestamp (n m : Z) :
  0 ≤ n < 2 ^ 63 →
  Z.abs (float64 n - n) ≤ 512 ∧
  (n < 2 ^ 53 → float64 n = n) ∧
  (n ≤ m → float64 n ≤ float64 m).
Proof.
  intros Hn. split; [|split].
  - destruct (Z.eq_dec n 0) as [->|Hz]; [by vm_compute|].
    rewrite float64_eq. rewrite Z.sgn_pos, (Z.abs_eq n) by lia.
    rewrite Z.mul_1_l. unfold float64_abs.
    destruct (Z.ltb_spec n (2 ^ 53)) as [|Hbig]; [rewrite Z.sub_diag; simpl; lia|].
    assert (53 ≤ Z.log2 n) as Hlo by (apply Z.log2_le_pow2; lia).
    assert (Z.log2 n < 63) as Hhi by (apply Z.log2_lt_pow2; lia).
    etrans; [apply round_even_error; lia|].
    change 512 with (2 ^ 9). apply Z.pow_le_mono_r; lia.
  - intros H. apply float64_exact. lia.
  - apply float64_mono.
Qed.

Lemma score_close_to_timestamp_witness :
  Z.abs (float64 1700000000000000200 - 1700000000000000200) ≤ 512 ∧
  float64 1700000000000000200 ≤ float64 1700000000000000300.
Proof.
  pose proof (score_close_to_timestamp 1700000000000000200 1700000000000000300
                ltac:(lia)) as (H1 & _ & H2).
  split; [exact H1|apply H2; lia].
Defined.

(** ** A payload under an index key *)

Lemma Set_direct_live e t id b r :
  PipePeriod (opts r) = 0 → link e = None →
  unexpired (resultPrefix +:+ id) (Set_ e id b r).1 t →
  live t (resultPrefix +:+ id) (server (conn (Set_ e id b r).1)) = Some (VString b).
Proof.
  intros Hp Hl. unfold unexpired. rewrite (Set_direct _ _ _ _ Hp).
  cbn [fst conn with_conn]. rewrite process_server, Hl.
  unfold live. rewrite run_CSet_at. cbn [e_val].
  destruct (expired t _); [by intros [x Hx]|done].
Qed.

Lemma Set_direct_opts e id b r : opts (Set_ e id b r).1 = opts r.
Proof.
  destruct (decide (PipePeriod (opts r) = 0)) as [Hp|Hp].
  - by rewrite (Set_direct _ _ _ _ Hp).
  - by rewrite (Set_queued _ _ _ _ Hp).
Qed.

(** X13.  Once [Set] has written a payload for the job "success", the
    success index cannot be used while that payload lasts: [GetSuccess]
    returns the store's wrong-type error and no list, and [SetSuccess]
    of any job returns that error and records nothing.  The job "failed"
    does the same to the failed index. *)
Theorem payload_under_index_key_blocks_index
    (e e' : env) (b : bytes) (id : string) (r : Results) :
  PipePeriod (opts r) = 0 → link e = None → link e' = None →
  (let r1 := (Set_ e success b r).1 in
   unexpired (resultPrefix +:+ success) r1 (now e') →
   (GetSuccess e' r1).2 = inl WrongType ∧
   (SetSuccess e' id r1).2 = Some WrongType ∧
   index (now e') (resultPrefix +:+ success) (server (conn (SetSuccess e' id r1).1)) = []) ∧
  (let r1 := (Set_ e failed b r).1 in
   unexpired (resultPrefix +:+ failed) r1 (now e') →
   (GetFailed e' r1).2 = inl WrongType ∧
   (SetFailed e' id r1).2 = Some WrongType ∧
   index (now e') (resultPrefix +:+ failed) (server (conn (SetFailed e' id r1).1)) = []).
Proof.
  intros Hp Hl Hl'. split; intros r1 Hu.
  - pose proof (Set_direct_live _ _ _ _ _ Hp Hl Hu) as Hlive. fold r1 in Hlive.
    assert (PipePeriod (opts r1) = 0) as Hp1
      by (unfold r1; by rewrite Set_direct_opts).
    rewrite GetSuccess_result, (SetSuccess_direct _ _ _ Hp1).
    cbn [fst snd conn with_conn].
    rewrite !process_result, process_server, Hl', run_CZRevRangeByScore, Hlive.
    rewrite (run_CZAdd_refused _ _ _ _ _ _ Hlive). cbn [fst snd].
    repeat split; try done.
    unfold index. by rewrite live_expireIfNeeded, Hlive.
  - pose proof (Set_direct_live _ _ _ _ _ Hp Hl Hu) as Hlive. fold r1 in Hlive.
    assert (PipePeriod (opts r1) = 0) as Hp1
      by (unfold r1; by rewrite Set_direct_opts).
    rewrite GetFailed_result, (SetFailed_direct _ _ _ Hp1).
    cbn [fst snd conn with_conn].
    rewrite !process_result, process_server, Hl', run_CZRevRangeByScore, Hlive.
    rewrite (run_CZAdd_refused _ _ _ _ _ _ Hlive). cbn [fst snd].
    repeat split; try done.
    unfold index. by rewrite live_expireIfNeeded, Hlive.
Qed.

Lemma payload_under_index_key_blocks_index_witness :
  let r0 := (New DefaultRedis [] ∅).1 in
  let r1 := (SetFailed (Env 10 None) "job-1" r0).1 in
  let r2 := (Set_ (Env 20 None) "failed" [Byte.x6f] r1).1 in
  (GetFailed (Env 15 None) r1).2 = inr ["job-1"] ∧
  (GetFailed (Env 30 None) r2).2 = inl WrongType ∧
  (SetFailed (Env 30 None) "job-2" r2).2 = Some WrongType.
Proof.
  intros r0 r1 r2. split; [reflexivity|].
  pose proof (proj2 (payload_under_index_key_blocks_index (Env 20 None)
                       (Env 30 None) [Byte.x6f] "job-2" r1
                       eq_refl eq_refl eq_refl))
    as H. simpl in H.
  destruct H as (H1 & H2 & _); [vm_compute; eauto|]. by split.
Defined.

(** ** What DeleteJob returns *)

Lemma run_batch_cons_snd now c q (d : database) :
  (run_batch now (c :: q) d).2 =
  match (run now c d).2 with
  | inl err => Some err
  | inr _ => (run_batch now q (run now c d).1).2
  end.
Proof.
  simpl. destruct (run now c d) as [d1 res]. simpl.
  destruct (run_batch now q d1) as [d2 err]. by destruct res.
Qed.

Lemma run_CZRem_result now k ms (d : database) :
  (run now (CZRem k ms) d).2 =
  match live now k d with
  | Some (VString _) => inl WrongType
  | Some (VZSet z) =>
      inr (RInt (count_removed z (zset_rem (arg_string <$> ms) z)))
  | None => inr (RInt 0)
  end.
Proof.
  destruct (live now k d) as [[b|z]|] eqn:Hlive.
  - apply live_Some in Hlive as [t Ht]. simpl. by rewrite Ht.
  - apply live_Some in Hlive as [t Ht]. simpl. by rewrite Ht.
  - apply live_None in Hlive. simpl. by rewrite Hlive.
Qed.

(** X14.  What [DeleteJob] returns.  When its round trip fails it
    returns that failure and the store is as before.  When the round
    trip is delivered it returns no error exactly when neither index key
    holds a result payload; otherwise it returns the store's wrong-type
    error, and the commands behind the refused one have run all the
    same. *)
Theorem DeleteJob_result (e : env) (id : string) (r : Results) :
  let d := server (conn r) in
  let ks := resultPrefix +:+ success in
  let kf := resultPrefix +:+ failed in
  (∀ m, link e = Some m →
     (DeleteJob e id r).2 = Some (IOError m) ∧
     server (conn (DeleteJob e id r).1) = d) ∧
  (link e = None →
   ((DeleteJob e id r).2 = None ↔
    (∀ b, live (now e) ks d ≠ Some (VString b)) ∧
    (∀ b, live (now e) kf d ≠ Some (VString b))) ∧
   ((DeleteJob e id r).2 = None ∨ (DeleteJob e id r).2 = Some WrongType) ∧
   server (conn (DeleteJob e id r).1) = (run_batch (now e) (delete_batch id) d).1).
Proof.
  intros d ks kf. rewrite DeleteJob_unfold. cbn [fst snd conn with_conn].
  rewrite roundtrip_error, roundtrip_server. split.
  - by intros m ->.
  - intros ->. fold d. unfold delete_batch. fold ks kf.
    rewrite !run_batch_cons_snd. cbn [run_batch snd].
    rewrite !run_CZRem_result.
    assert (live (now e) kf (run (now e) (CZRem ks [AInt 1; AStr id]) d).1
            = live (now e) kf d) as ->
      by (apply run_frame; simpl; apply index_keys_differ).
    assert ((run (now e) (CDel (resultPrefix +:+ id))
               (run (now e) (CZRem kf [AInt 1; AStr id])
                  (run (now e) (CZRem ks [AInt 1; AStr id]) d).1).1).2
            = inr (RInt (if (expireIfNeeded (now e) (resultPrefix +:+ id)
                   (run (now e) (CZRem kf [AInt 1; AStr id])
                      (run (now e) (CZRem ks [AInt 1; AStr id]) d).1).1)
                   !! (resultPrefix +:+ id) is Some _ then 1 else 0))) as ->
      by done.
    destruct (live (now e) ks d) as [[b|z]|];
      destruct (live (now e) kf d) as [[b'|z']|].
    all: split; [split|split; [|done]].
    all: try (by left); try (by right).
    all: try (intros [=]).
    all: try (by split; intros ? [=]).
    all: intros [H1 H2];
      first [done | by destruct (H1 b) | by destruct (H2 b')].
Qed.

Lemma DeleteJob_result_witness :
  let r0 := (New DefaultRedis [] ∅).1 in
  let r1 := (Set_ (Env 10 None) "failed" [Byte.x6f] r0).1 in
  let r2 := (Set_ (Env 11 None) "job-1" [Byte.x6f] r1).1 in
  (DeleteJob (Env 20 None) "job-1" r0).2 = None ∧
  (DeleteJob (Env 20 None) "job-1" r2).2 = Some WrongType ∧
  (Get (Env 30 None) "job-1" (DeleteJob (Env 20 None) "job-1" r2).1).2
    = inl NilError.
Proof.
  intros r0 r1 r2.
  pose proof (proj2 (DeleteJob_result (Env 20 None) "job-1" r0) eq_refl)
    as (H0 & _ & _).
  split; [apply H0; split; intros b; by vm_compute|].
  split; reflexivity.
Defined.

(** ** What the purger leaves alone *)

Lemma process_frame_lookup e c cn k :
  command_key c ≠ k → server (process e c cn).1 !! k = server cn !! k.
Proof.
  intros Hk. rewrite process_server. destruct (link e); [done|].
  by apply run_frame_lookup.
Qed.

Lemma expireMeta_tick_frame ttl e r k :
  k ≠ resultPrefix +:+ success → k ≠ resultPrefix +:+ failed →
  server (conn (expireMeta_tick ttl e r)) !! k = server (conn r) !! k.
Proof.
  intros Hs Hf. destruct (decide (PipePeriod (opts r) = 0)) as [Hp|Hp].
  - destruct (expireMeta_tick_direct ttl e r Hp) as [_ Hc]. simpl in Hc.
    rewrite Hc. rewrite !process_frame_lookup; done.
  - by destruct (expireMeta_tick_queued ttl e r Hp) as (_ & -> & _).
Qed.

(** X15.  The purger touches the two index keys and nothing else.
    However many ticks it handles, with or without batching, every other
    key of the store, and so every result record of a job not named
    "success" or "failed", is exactly as it was: records are never
    purged, they go by their own [Expiry] or by [DeleteJob]. *)
Theorem expireMeta_keeps_records
    (ttl : Z) (ticks : list env) (r : Results) (k : string) :
  k ≠ resultPrefix +:+ success → k ≠ resultPrefix +:+ failed →
  server (conn (expireMeta ttl ticks r).1) !! k = server (conn r) !! k.
Proof.
  intros Hs Hf. unfold expireMeta. destruct (NewTicker ttl); [|done].
  cbn [fst]. set (r0 := log LInfo _ r).
  change (server (conn r) !! k) with (server (conn r0) !! k).
  generalize r0. clear r r0.
  induction ticks as [|e ticks IH]; intros r; [done|].
  simpl. rewrite IH. by apply expireMeta_tick_frame.
Qed.

Lemma expireMeta_keeps_records_witness :
  let r0 := (New DefaultRedis [] ∅).1 in
  let r1 := (Set_ (Env 10 None) "job-1" [Byte.x6f] r0).1 in
  let r2 := (SetSuccess (Env 11 None) "job-1" r1).1 in
  let r3 := (expireMeta 5 [Env 100 None; Env 105 None] r2).1 in
  server (conn r3) !! (resultPrefix +:+ "job-1")
    = Some (Entry (VString [Byte.x6f]) None) ∧
  index 110 (resultPrefix +:+ success) (server (conn r3)) = [].
Proof.
  intros r0 r1 r2 r3. split; [|reflexivity].
  etrans; [apply (expireMeta_keeps_records 5 [Env 100 None; Env 105 None] r2
                    (resultPrefix +:+ "job-1")); by vm_compute|reflexivity].
Defined.
